(** * genlm.backend.llm.base: [AsyncLM] and [MockAsyncLM]

    A shallow embedding of [src/genlm/backend/llm/base.py] and the properties
    of its batch dispatch and of the deterministic mock backend.

    Layout:
    - Python values: exceptions, results, stateful fallible computations;
    - [RandomState]: numpy's legacy generator (MT19937), which the mock
      backend reseeds on every call;
    - [Torch]: the float32 tensor operations the module calls, as an
      interface;
    - coroutines, the event loop and [asyncio.gather];
    - [AsyncLM] (the abstract base class) and its two batch methods;
    - [MockAsyncLM];
    - the theorems. *)

From Stdlib Require Import ZArith List Bool Lia String DecimalString.
From Stdlib Require Import Reals Lra.
Import ListNotations.

Set Implicit Arguments.

Local Open Scope Z_scope.

(* ================================================================== *)
(** ** Python values *)

(** The exceptions the module can raise by itself or through the numpy and
    torch calls it makes; the message travels with the exception. *)
Inductive exn : Type :=
| ValueError (msg : string)
| RuntimeError (msg : string)
| OtherError (class_name msg : string).

(** The outcome of a call: a value or a raised exception. *)
Inductive result (A : Type) : Type :=
| Ok (a : A)
| Err (e : exn).

Arguments Ok {A} a.
Arguments Err {A} e.

(** A method of an object whose attributes are [St]: it returns or raises,
    and leaves the object in a new state either way. *)
Definition method (St A : Type) : Type := St -> result A * St.

Definition ret {St A : Type} (a : A) : method St A := fun s => (Ok a, s).

Definition raise {St A : Type} (e : exn) : method St A := fun s => (Err e, s).

Definition bind {St A B : Type} (c : method St A) (k : A -> method St B)
  : method St B :=
  fun s => match c s with
           | (Ok a, s') => k a s'
           | (Err e, s') => (Err e, s')
           end.

Declare Scope py_scope.
Delimit Scope py_scope with py.
Notation "x <- c ;; k" := (bind c (fun x => k))
  (at level 61, c at next level, right associativity) : py_scope.

(** A list comprehension [[f(x) for x in xs]] over a method [f]: the calls
    are made left to right and the first exception ends the comprehension. *)
Fixpoint comprehension {St A B : Type} (f : A -> method St B) (xs : list A)
  : method St (list B) :=
  match xs with
  | [] => ret []
  | x :: xs' => (y <- f x ;; ys <- comprehension f xs' ;; ret (y :: ys))%py
  end.

(** The attributes of an object after the calls [f(x)] for the [x] of [xs],
    made one after the other. *)
Definition after_calls {St A B : Type} (f : A -> method St B) (xs : list A)
    (s : St) : St :=
  fold_left (fun s x => snd (f x s)) xs s.

(** [enumerate(xs)], counting from [i]. *)
Fixpoint enumerate_from {A : Type} (i : Z) (xs : list A) : list (Z * A) :=
  match xs with
  | [] => []
  | x :: xs' => (i, x) :: enumerate_from (i + 1) xs'
  end.

Definition enumerate {A : Type} (xs : list A) : list (Z * A) :=
  enumerate_from 0 xs.

(** The builtin [sum] on Python integers, which do not overflow. *)
Definition sum (xs : list Z) : Z := fold_left Z.add xs 0.

(** The assignment [l[i] = v] at an index of the list; it is only used at
    indices the list has, and leaves the list alone at others. *)
Fixpoint list_set {A : Type} (i : nat) (v : A) (l : list A) : list A :=
  match l, i with
  | [], _ => []
  | _ :: l', O => v :: l'
  | x :: l', S i' => x :: list_set i' v l'
  end.

(* ================================================================== *)
(** ** numpy.random.RandomState

    The legacy generator is the Mersenne Twister MT19937.  Only the two
    methods the mock backend calls are modelled: [seed] with an integer and
    [rand]; the Gaussian cache of the legacy state is never filled by them
    and is left out. *)
Module RandomState.

Definition RK_STATE_LEN : nat := 624.
Definition M : nat := 397.
Definition MATRIX_A : Z := 0x9908b0df.
Definition UPPER_MASK : Z := 0x80000000.
Definition LOWER_MASK : Z := 0x7fffffff.

(** Arithmetic on [uint32_t]. *)
Definition u32 (z : Z) : Z := Z.land z 0xffffffff.

Record t : Type := mk { key : list Z; pos : nat }.

(** [mt19937_seed]: Knuth's generator fills the 624 words of the key. *)
Fixpoint seed_key (n : nat) (pos : Z) (seed : Z) : list Z :=
  match n with
  | O => []
  | S n' =>
      seed :: seed_key n' (pos + 1)
                (u32 (1812433253 * Z.lxor seed (Z.shiftr seed 30) + pos + 1))
  end.

Definition mt19937_seed (seed : Z) : t :=
  {| key := seed_key RK_STATE_LEN 0 (u32 seed); pos := RK_STATE_LEN |}.

Definition seed_error : exn :=
  ValueError "Seed must be between 0 and 2**32 - 1".

(** [RandomState.seed(seed)] with an integer: the range is checked, then
    the whole state is overwritten. *)
Definition seed (s : Z) : method t unit :=
  if (s <? 0) || (2 ^ 32 - 1 <? s) then raise seed_error
  else fun _ => (Ok tt, mt19937_seed s).

(** [RandomState(seed)]: a fresh generator. *)
Definition new (s : Z) : t := mt19937_seed s.

(** One word of the twist: [key[i]] from [key[i]], [key[j]] and [key[k]],
    where [j] is the next index and [k] the one 397 places on, both
    circular. *)
Definition twist_at (i : nat) (key : list Z) : list Z :=
  let j := Nat.modulo (i + 1) RK_STATE_LEN in
  let k := Nat.modulo (i + M) RK_STATE_LEN in
  let y := Z.lor (Z.land (nth i key 0) UPPER_MASK)
                 (Z.land (nth j key 0) LOWER_MASK) in
  let mag := if Z.testbit y 0 then MATRIX_A else 0 in
  list_set i (Z.lxor (Z.lxor (nth k key 0) (Z.shiftr y 1)) mag) key.

(** [mt19937_gen]: the words are regenerated in place, in index order. *)
Definition mt19937_gen (st : t) : t :=
  {| key := fold_left (fun key i => twist_at i key) (seq 0 RK_STATE_LEN)
                      (key st);
     pos := 0 |}.

Definition temper (y : Z) : Z :=
  let y := Z.lxor y (Z.shiftr y 11) in
  let y := Z.lxor y (Z.land (u32 (Z.shiftl y 7)) 0x9d2c5680) in
  let y := Z.lxor y (Z.land (u32 (Z.shiftl y 15)) 0xefc60000) in
  Z.lxor y (Z.shiftr y 18).

(** [mt19937_next]: the next 32 random bits. *)
Definition mt19937_next (st : t) : Z * t :=
  let st := if Nat.eqb (pos st) RK_STATE_LEN then mt19937_gen st else st in
  (temper (nth (pos st) (key st) 0),
   {| key := key st; pos := S (pos st) |}).

(** [mt19937_next_double]: the double [(a * 2^26 + b) / 2^53].  It is
    exact in binary64, and is kept as its numerator: the value [k] stands
    for the double [k / 2^53]. *)
Definition mt19937_next_double (st : t) : Z * t :=
  let (x, st) := mt19937_next st in
  let (y, st) := mt19937_next st in
  (Z.shiftr x 5 * 67108864 + Z.shiftr y 6, st).

(** [double_fill]: [n] doubles, drawn one after the other. *)
Fixpoint double_fill (n : nat) (st : t) : list Z * t :=
  match n with
  | O => ([], st)
  | S n' =>
      let (d, st) := mt19937_next_double st in
      let (ds, st) := double_fill n' st in
      (d :: ds, st)
  end.

(** [RandomState.rand(n)]: a new array of [n] doubles. *)
Definition rand (n : nat) : method t (list Z) :=
  fun st => let (ds, st') := double_fill n st in (Ok ds, st').

(** The words of a generator are 32-bit words. *)
Definition is_u32 (w : Z) : Prop := 0 <= w < 2 ^ 32.

Definition well_formed (st : t) : Prop := Forall is_u32 (key st).

End RandomState.

(* ================================================================== *)
(** ** torch

    The tensors of this module are one-dimensional float32 tensors, kept as
    the list of their entries.  The float32 operations are an interface:
    the conversion of a drawn double and the log-softmax kernel. *)
Class Torch : Type := {
  float32 : Type;
  (** [ndarray.astype(np.float32)] followed by [torch.from_numpy], on one
      entry: the double [k / 2^53] rounded to float32. *)
  astype_float32 : Z -> float32;
  (** [torch.log_softmax(logits, dim=-1)] on a one-dimensional tensor. *)
  log_softmax : list float32 -> list float32
}.

Section TorchOps.
Context {T : Torch}.

Definition Tensor : Type := list float32.

Definition same_size (t u : Tensor) : bool :=
  Nat.eqb (List.length u) (List.length t).

Definition empty_stack_error : exn :=
  RuntimeError "stack expects a non-empty TensorList".

(** The decimal numeral of a size or an index in a message. *)
Definition string_of_nat (n : nat) : string :=
  NilEmpty.string_of_uint (Nat.to_uint n).

(** The error of [torch.stack] on one-dimensional tensors of unequal sizes:
    it names the size of entry 0 and the first entry [k] of another size. *)
Definition unequal_stack_error (size0 k sizek : nat) : exn :=
  RuntimeError
    (String.concat EmptyString
       ["stack expects each tensor to be equal size, but got ["%string;
        string_of_nat size0; "] at entry 0 and ["%string;
        string_of_nat sizek; "] at entry "%string; string_of_nat k]).

(** The first tensor of [rest], the entries [k], [k + 1], ... of a list,
    whose size is not the size of [t]. *)
Fixpoint first_unequal (t : Tensor) (k : nat) (rest : list Tensor)
  : option (nat * Tensor) :=
  match rest with
  | [] => None
  | u :: rest' =>
      if same_size t u then first_unequal t (S k) rest' else Some (k, u)
  end.

(** [torch.stack(tensors)]: the rows of the new tensor are the given
    tensors in order; an empty list and tensors of unequal sizes are
    refused. *)
Definition torch_stack (tensors : list Tensor) : result (list Tensor) :=
  match tensors with
  | [] => Err empty_stack_error
  | t :: rest =>
      match first_unequal t 1 rest with
      | None => Ok tensors
      | Some (k, u) =>
          Err (unequal_stack_error (List.length t) k (List.length u))
      end
  end.

End TorchOps.

(* ================================================================== *)
(** ** Coroutines and asyncio

    A coroutine of a method of an object with attributes [St] has returned,
    has raised, or is suspended; resuming a suspended coroutine runs it on
    the current attributes up to its next suspension point. *)
#[warnings="-register-all"] Inductive coro (St A : Type) : Type :=
| Return (a : A)
| Raise (e : exn)
| Suspended (resume : St -> coro St A * St).

Arguments Return {St A} a.
Arguments Raise {St A} e.
Arguments Suspended {St A} resume.

(** Calling an [async def] whose body awaits nothing: the coroutine object
    is created suspended at its start and runs its whole body when it is
    first resumed. *)
Definition async_def {St A : Type} (body : method St A) : coro St A :=
  Suspended (fun s => match body s with
                      | (Ok a, s') => (Return a, s')
                      | (Err e, s') => (Raise e, s')
                      end).

(** [loop.run_until_complete(c)]: the coroutine is resumed until it is done;
    [fuel] bounds the number of resumptions. *)
Fixpoint run_until_complete {St A : Type} (fuel : nat) (c : coro St A) (s : St)
  : option (result A * St) :=
  match c with
  | Return a => Some (Ok a, s)
  | Raise e => Some (Err e, s)
  | Suspended resume =>
      match fuel with
      | O => None
      | S fuel' => let (c', s') := resume s in run_until_complete fuel' c' s'
      end
  end.

Section Gather.
Variables St A : Type.

(** The event loop while [asyncio.gather] is awaited: the attributes of the
    object the tasks share, one task per awaitable in the order they were
    given, and the exception set on the future of [gather], if any. *)
Record loop : Type := mkLoop {
  shared : St;
  tasks : list (coro St A);
  exception : option exn
}.

(** [asyncio.gather] over the awaitables [aws]: each becomes a task of the
    loop. *)
Definition gather (aws : list (coro St A)) (s : St) : loop :=
  {| shared := s; tasks := aws; exception := None |}.

(** The loop resumes task [i].  A task that raises sets the exception of
    the future of [gather] unless one is set already; the other tasks are
    not cancelled.  Picking a task that is done changes nothing. *)
Definition resume_task (lp : loop) (i : nat) : loop :=
  match nth_error (tasks lp) i with
  | Some (Suspended resume) =>
      let (c, s') := resume (shared lp) in
      {| shared := s';
         tasks := list_set i c (tasks lp);
         exception := match exception lp, c with
                      | None, Raise e => Some e
                      | ex, _ => ex
                      end |}
  | _ => lp
  end.

(** The loop run along a schedule: the order in which it resumes tasks. *)
Definition run_loop (sched : list nat) (lp : loop) : loop :=
  fold_left resume_task sched lp.

(** The values of the tasks in the order of the awaitables, once every
    task has returned. *)
Fixpoint returned (ts : list (coro St A)) : option (list A) :=
  match ts with
  | [] => Some []
  | Return a :: ts' => option_map (cons a) (returned ts')
  | _ :: ts' => None
  end.

(** What awaiting the future of [gather] gives: the first exception that
    was raised, or the list of all values; [None] while the join waits. *)
Definition gather_result (lp : loop) : option (result (list A)) :=
  match exception lp with
  | Some e => Some (Err e)
  | None => option_map Ok (returned (tasks lp))
  end.

End Gather.

(* ================================================================== *)
(** ** AsyncLM *)

(** The abstract base class: a backend with attributes [St] provides the two
    single-request methods.  [next_token_logprobs] is an [async def]:
    calling it creates a coroutine that is suspended at its start. *)
Class AsyncLM {T : Torch} (St : Type) : Type := {
  next_token_logprobs : list Z -> coro St Tensor;
  next_token_logprobs_sync : list Z -> method St Tensor;
  next_token_logprobs_async_def :
    forall token_ids, exists resume,
      next_token_logprobs token_ids = Suspended resume
}.

Section Batch.
Context {T : Torch} {St : Type} {LM : AsyncLM St}.

(** [AsyncLM.batch_next_token_logprobs], run by an event loop that resumes
    the tasks of [gather] in the order [sched].  The outcome is [None]
    while the join is still waiting. *)
Definition batch_next_token_logprobs (sched : list nat)
    (token_ids_list : list (list Z)) (self : St)
  : option (result (list Tensor)) * St :=
  let lp := run_loop sched
              (gather (map next_token_logprobs token_ids_list) self) in
  (match gather_result lp with
   | None => None
   | Some (Err e) => Some (Err e)
   | Some (Ok logprobs) => Some (torch_stack logprobs)
   end, shared lp).

(** [AsyncLM.batch_next_token_logprobs_sync]. *)
Definition batch_next_token_logprobs_sync (token_ids_list : list (list Z))
  : method St (list Tensor) :=
  (logprobs <- comprehension next_token_logprobs_sync token_ids_list ;;
   fun self => (torch_stack logprobs, self))%py.

End Batch.

(* ================================================================== *)
(** ** MockAsyncLM *)

(** The attributes of a mock backend that its methods read: the length of
    the tokenizer and the generator.  The vocabulary tables built by
    [decode_vocab] are not read by any method below. *)
Record MockAsyncLM : Type := mkMock {
  tokenizer_len : nat;
  _rng : RandomState.t
}.

(** [MockAsyncLM.__init__], for a tokenizer of the given length. *)
Definition MockAsyncLM_init (tokenizer_len : nat) : MockAsyncLM :=
  {| tokenizer_len := tokenizer_len; _rng := RandomState.new 42 |}.

(** A method of the generator, called on the attribute [self._rng]. *)
Definition on_rng {A : Type} (c : method RandomState.t A)
  : method MockAsyncLM A :=
  fun self =>
    let (r, rng) := c (_rng self) in
    (r, {| tokenizer_len := tokenizer_len self; _rng := rng |}).

(** [len(self.tokenizer)]. *)
Definition len_tokenizer : method MockAsyncLM nat :=
  fun self => (Ok (tokenizer_len self), self).

(** The seed of [_get_logprobs]:
    [sum([(i + 1) * t for i, t in enumerate(token_ids)])]. *)
Definition get_logprobs_seed (token_ids : list Z) : Z :=
  sum (map (fun '(i, t) => (i + 1) * t) (enumerate token_ids)).

Section Mock.
Context {T : Torch}.

(** [MockAsyncLM._get_logprobs]. *)
Definition _get_logprobs (token_ids : list Z) : method MockAsyncLM Tensor :=
  (let seed := get_logprobs_seed token_ids in
   _ <- on_rng (RandomState.seed seed) ;;
   n <- len_tokenizer ;;
   draws <- on_rng (RandomState.rand n) ;;
   let logits := map astype_float32 draws in
   ret (log_softmax logits))%py.

#[export] Instance MockAsyncLM_AsyncLM : AsyncLM MockAsyncLM := {
  next_token_logprobs token_ids := async_def (_get_logprobs token_ids);
  next_token_logprobs_sync token_ids := _get_logprobs token_ids;
  next_token_logprobs_async_def token_ids := ex_intro _ _ eq_refl
}.

End Mock.

(* ================================================================== *)
(** ** Notions used by the statements *)

(** The position-weighted checksum as the documentation words it: the sum
    over the positions [i = 0 .. n-1] of [(i + 1) * token_ids[i]]. *)
Definition position_weighted_sum (token_ids : list Z) : Z :=
  fold_right Z.add 0
    (map (fun i => (Z.of_nat i + 1) * nth i token_ids 0)
         (seq 0 (List.length token_ids))).

(** The sum of the exponentials of a vector of reals. *)
Definition sum_exp (xs : list R) : R :=
  fold_right (fun x acc => (exp x + acc)%R) 0%R xs.

(** The contract of the log-softmax kernel at a vocabulary of [n] tokens, on
    the logits the mock backend feeds it there, the casts of [n] doubles
    [k / 2^53] of [[0, 1)], for a reading [value] of float32 entries as
    reals: the result has one entry per logit, within [delta] of the logit
    minus the logarithm of the sum of the exponentials of the logits. *)
Definition log_softmax_accurate_at {T : Torch} (n : nat)
    (value : float32 -> R) (delta : R) : Prop :=
  forall draws : list Z,
    List.length draws = n ->
    Forall (fun k => 0 <= k < 2 ^ 53) draws ->
    let logits := map astype_float32 draws in
    Forall2
      (fun y x =>
         (Rabs (value y - (value x - ln (sum_exp (map value logits))))
          <= delta)%R)
      (log_softmax logits) logits.

(** A coroutine that, resumed in states that satisfy [Inv] however it is
    interleaved with others, always ends with the outcome [r] and keeps
    [Inv]. *)
Inductive always_yields {St A : Type} (Inv : St -> Prop) (r : result A)
  : coro St A -> Prop :=
| yields_return : forall a, r = Ok a -> always_yields Inv r (Return a)
| yields_raise : forall e, r = Err e -> always_yields Inv r (Raise e)
| yields_suspended : forall resume,
    (forall s, Inv s -> always_yields Inv r (fst (resume s))) ->
    (forall s, Inv s -> Inv (snd (resume s))) ->
    always_yields Inv r (Suspended resume).

(** [resumes_to P c c']: resuming the coroutine [c] some number of times,
    each time in a state of [P], brings it to [c']. *)
Inductive resumes_to {St A : Type} (P : St -> Prop)
  : coro St A -> coro St A -> Prop :=
| resumes_refl : forall c, resumes_to P c c
| resumes_step : forall resume s c',
    P s -> resumes_to P (fst (resume s)) c' ->
    resumes_to P (Suspended resume) c'.

(** No task of the list has raised. *)
Definition none_raised {St A : Type} (ts : list (coro St A)) : Prop :=
  forall i e, nth_error ts i <> Some (Raise e).

(** Task [i] of the loop is not waiting to be resumed. *)
Definition not_suspended {St A : Type} (lp : loop St A) (i : nat) : Prop :=
  forall resume, nth_error (tasks lp) i <> Some (Suspended resume).

(** A coroutine that is done after one resumption at most. *)
Definition one_shot {St A : Type} (c : coro St A) : Prop :=
  forall resume s resume',
    c = Suspended resume -> fst (resume s) <> Suspended resume'.

(** The join carries no exception exactly as long as no task has raised. *)
Definition join_consistent {St A : Type} (lp : loop St A) : Prop :=
  match exception lp with
  | None => none_raised (tasks lp)
  | Some e => exists i, nth_error (tasks lp) i = Some (Raise e)
  end.

(** The invariant of the loop of a batch on a deterministic backend: the
    shared attributes satisfy [Inv] and the task at each index still yields
    the outcome [f] gives its own request. *)
Definition aligned {T : Torch} {St : Type} (Inv : St -> Prop)
    (f : list Z -> result Tensor) (reqs : list (list Z))
    (lp : loop St Tensor) : Prop :=
  Inv (shared lp)
  /\ Forall2 (fun ids c => always_yields Inv (f ids) c) reqs (tasks lp).

(** The attributes in which the loop of a batch resumes a task along
    [sched]: those the steps of the schedule before that one left. *)
Definition batch_states {T : Torch} {St : Type} {LM : AsyncLM St}
    (sched : list nat) (reqs : list (list Z)) (self : St) : St -> Prop :=
  fun s => exists k,
      (k < List.length sched)%nat
      /\ s = snd (batch_next_token_logprobs (firstn k sched) reqs self).

(** The outcome of either batch on a deterministic backend, where [f] gives
    the outcome of each request: the stack of the values of all requests,
    or the exception that is the outcome of one of the requests. *)
Definition batch_outcome_of {T : Torch} (f : list Z -> result Tensor)
    (reqs : list (list Z)) (out : result (list Tensor)) : Prop :=
  (exists vals,
      Forall2 (fun ids v => f ids = Ok v) reqs vals /\ out = torch_stack vals)
  \/ (exists ids e, In ids reqs /\ f ids = Err e /\ out = Err e).

(** The attributes of a backend after the blocking single-request calls for
    the given requests, made one after the other. *)
Definition state_after {T : Torch} {St : Type} {LM : AsyncLM St}
    (requests : list (list Z)) (self : St) : St :=
  after_calls next_token_logprobs_sync requests self.

(** [AsyncLM.clear_cache]: the base class does nothing, and the mock
    backend inherits it. *)
Definition clear_cache {St : Type} : method St unit := ret tt.

(** The seed of a request passes the range check of [RandomState.seed]. *)
Definition seed_accepted (token_ids : list Z) : bool :=
  negb ((get_logprobs_seed token_ids <? 0)
        || (2 ^ 32 - 1 <? get_logprobs_seed token_ids)).

(** The distribution of a request over a tokenizer of [n] tokens, drawn from
    a generator newly seeded with the seed of the request. *)
Definition seeded_distribution {T : Torch} (n : nat) (token_ids : list Z)
  : Tensor :=
  log_softmax
    (map astype_float32
         (fst (RandomState.double_fill n
                 (RandomState.new (get_logprobs_seed token_ids))))).

(** The contract of the cast on the doubles the generator draws: the
    float32 nearest to a double of [[0, 1)] lies in [[0, 1]]. *)
Definition cast_in_unit_interval {T : Torch} (value : float32 -> R) : Prop :=
  forall k : Z, 0 <= k < 2 ^ 53 -> (0 <= value (astype_float32 k) <= 1)%R.

(* ------------------------------------------------------------------ *)
(** *** The term model of the tensor interface

    Each entry records how it was computed: the cast of a drawn double, or
    an entry of the log-softmax of given logits.  Two tensors that are equal
    here are equal under every implementation of the kernels. *)
#[warnings="-register-all"] Inductive sym32 : Type :=
| Cast (k : Z)
| LogSoftmaxAt (logits : list sym32) (i : nat).

Definition Symbolic : Torch := {|
  float32 := sym32;
  astype_float32 := Cast;
  log_softmax logits := map (LogSoftmaxAt logits) (seq 0 (List.length logits))
|}.

(** The terms read in exact real arithmetic, without rounding: the cast of
    [k] is [k / 2^53] and entry [i] of a log-softmax is the logit minus the
    logarithm of the sum of the exponentials of all logits. *)
Fixpoint exact_value (x : sym32) : R :=
  match x with
  | Cast k => (IZR k / 2 ^ 53)%R
  | LogSoftmaxAt logits i =>
      (nth i (map exact_value logits) 0 - ln (sum_exp (map exact_value logits)))%R
  end.

(* ------------------------------------------------------------------ *)
(** *** A fixed-point model of the tensor interface

    A kernel of finite precision and bounded range: an entry is a multiple
    of [2^-20], kept as its numerator, and reads as a real between -100 and
    100.  The cast rounds the double [k / 2^53] down to the grid, and the
    log-softmax rounds each exact entry down to the grid. *)
Definition fixed_value (z : Z) : R :=
  Rmax (-100) (Rmin 100 (IZR z / 2 ^ 20)).

Definition to_fixed (x : R) : Z := Int_part (x * 2 ^ 20).

Definition FixedPoint : Torch := {|
  float32 := Z;
  astype_float32 k := k / 2 ^ 33;
  log_softmax logits :=
    map (fun x =>
           to_fixed (fixed_value x - ln (sum_exp (map fixed_value logits))))
        logits
|}.

(* ================================================================== *)
(** * Properties *)

(** ** The generator reproduces numpy *)

(** The first word of the reference MT19937 seeded with 5489. *)
Example mt19937_reference_word :
  fst (RandomState.mt19937_next (RandomState.new 5489)) = 3499211612.
Proof. vm_compute. reflexivity. Qed.

(** [RandomState(42).rand(3)] is
    [0.3745401188473625, 0.9507143064099162, 0.7319939418114051]. *)
Example rand_seed_42 :
  fst (RandomState.rand 3 (RandomState.new 42))
  = Ok [3373557479352566; 8563273192166996; 6593215287158609].
Proof. vm_compute. reflexivity. Qed.

(** ** The seed *)

Lemma fold_left_add_acc (xs : list Z) (a : Z) :
  fold_left Z.add xs a = a + fold_left Z.add xs 0.
Proof.
  revert a. induction xs as [|x xs IH]; intros a; simpl.
  - lia.
  - rewrite (IH (a + x)), (IH x). lia.
Qed.

Lemma sum_cons (x : Z) (xs : list Z) : sum (x :: xs) = x + sum xs.
Proof. unfold sum. simpl. apply fold_left_add_acc. Qed.

(** The comprehension over [enumerate] started at [k] weighs the element at
    offset [i] by [k + i + 1]. *)
Lemma weighted_enumerate_from (token_ids : list Z) (k : nat) :
  sum (map (fun '(i, t) => (i + 1) * t)
           (enumerate_from (Z.of_nat k) token_ids))
  = fold_right Z.add 0
      (map (fun i => (Z.of_nat (k + i) + 1) * nth i token_ids 0)
           (seq 0 (List.length token_ids))).
Proof.
  revert k. induction token_ids as [|t ts IH]; intros k.
  - reflexivity.
  - cbn [enumerate_from map List.length seq fold_right]. rewrite sum_cons.
    replace (Z.of_nat k + 1) with (Z.of_nat (S k)) by lia.
    rewrite IH, <- seq_shift, map_map. cbn [nth].
    rewrite Nat.add_0_r. f_equal; [lia|]. f_equal.
    apply map_ext. intros i. now rewrite Nat.add_succ_comm.
Qed.

(** ** What one call of [_get_logprobs] does *)

Section MockFacts.
Context {T : Torch}.

(** The call in closed form: the result and the generator it leaves are
    read off the seed and the length of the tokenizer alone. *)
Lemma _get_logprobs_closed_form (token_ids : list Z) (self : MockAsyncLM) :
  _get_logprobs token_ids self
  = let s := get_logprobs_seed token_ids in
    if (s <? 0) || (2 ^ 32 - 1 <? s)
    then (Err RandomState.seed_error, self)
    else
      let drawn := RandomState.double_fill (tokenizer_len self)
                     (RandomState.mt19937_seed s) in
      (Ok (log_softmax (map astype_float32 (fst drawn))),
       {| tokenizer_len := tokenizer_len self; _rng := snd drawn |}).
Proof.
  destruct self as [n rng].
  unfold _get_logprobs, bind, on_rng, len_tokenizer, ret,
    RandomState.seed, RandomState.rand, raise.
  cbn [_rng tokenizer_len].
  destruct ((get_logprobs_seed token_ids <? 0)
            || (2 ^ 32 - 1 <? get_logprobs_seed token_ids)).
  - reflexivity.
  - cbn [_rng tokenizer_len].
    destruct (RandomState.double_fill n _) as [ds st]. reflexivity.
Qed.

Lemma _get_logprobs_tokenizer_len (token_ids : list Z) (self : MockAsyncLM) :
  tokenizer_len (snd (_get_logprobs token_ids self)) = tokenizer_len self.
Proof.
  rewrite _get_logprobs_closed_form. cbv zeta.
  destruct (_ || _); reflexivity.
Qed.

(** The result depends on the instance through the tokenizer only, and on
    the token ids through their seed only. *)
Lemma _get_logprobs_result_by_seed (ids ids' : list Z) (self self' : MockAsyncLM) :
  get_logprobs_seed ids = get_logprobs_seed ids' ->
  tokenizer_len self = tokenizer_len self' ->
  fst (_get_logprobs ids self) = fst (_get_logprobs ids' self').
Proof.
  intros Hs Hn. rewrite !_get_logprobs_closed_form. cbv zeta.
  rewrite <- Hs, <- Hn. destruct (_ || _); reflexivity.
Qed.

End MockFacts.

(** C4. The seed of the mock backend is the position-weighted sum of the
    token ids: position [i] (from 0) has weight [i + 1].  For [1, 2, 3] it
    is 14. *)
Theorem seed_is_position_weighted_sum :
  (forall token_ids : list Z,
      get_logprobs_seed token_ids = position_weighted_sum token_ids)
  /\ get_logprobs_seed [1; 2; 3] = 1 * 1 + 2 * 2 + 3 * 3
  /\ get_logprobs_seed [1; 2; 3] = 14.
Proof.
  split; [|split; reflexivity].
  intros token_ids. unfold get_logprobs_seed, enumerate, position_weighted_sum.
  exact (weighted_enumerate_from token_ids 0).
Qed.

(** C1. On the mock backend the coroutine of [next_token_logprobs], run to
    completion, gives for every token id sequence the very outcome of
    [next_token_logprobs_sync]: the same distribution or the same
    exception, and the same attributes afterwards.  One resumption is
    enough: the coroutine never suspends. *)
Theorem mock_async_equals_sync :
  forall (T : Torch) (token_ids : list Z) (self : MockAsyncLM) (fuel : nat),
    run_until_complete (S fuel) (next_token_logprobs token_ids) self
    = Some (next_token_logprobs_sync token_ids self).
Proof.
  intros T token_ids self fuel.
  cbn [next_token_logprobs next_token_logprobs_sync MockAsyncLM_AsyncLM].
  unfold async_def. cbn [run_until_complete].
  destruct (_get_logprobs token_ids self) as [[t|e] self'];
    destruct fuel; reflexivity.
Qed.

(** ** The event loop *)

Section ListSet.
Variable A : Type.

Lemma length_list_set (i : nat) (v : A) (l : list A) :
  List.length (list_set i v l) = List.length l.
Proof.
  revert i. induction l as [|x l IH]; intros [|i]; simpl; auto.
Qed.

Lemma nth_error_list_set_eq (i : nat) (v : A) (l : list A) :
  (i < List.length l)%nat -> nth_error (list_set i v l) i = Some v.
Proof.
  revert i. induction l as [|x l IH]; intros [|i] H; simpl in *;
    try lia; auto. apply IH. lia.
Qed.

Lemma nth_error_list_set_neq (i j : nat) (v : A) (l : list A) :
  i <> j -> nth_error (list_set i v l) j = nth_error l j.
Proof.
  revert i j. induction l as [|x l IH]; intros [|i] [|j] H; simpl;
    try congruence; auto.
Qed.

Lemma Forall_list_set (P : A -> Prop) (i : nat) (v : A) (l : list A) :
  P v -> Forall P l -> Forall P (list_set i v l).
Proof.
  intros Hv H. revert i. induction H as [|x l Hx H IH]; intros [|i]; simpl;
    constructor; auto.
Qed.

End ListSet.

Lemma Forall2_list_set (A B : Type) (P : A -> B -> Prop) (xs : list A)
    (l : list B) (i : nat) (c v : B) :
  Forall2 P xs l -> nth_error l i = Some c ->
  (forall x, P x c -> P x v) ->
  Forall2 P xs (list_set i v l).
Proof.
  intros H. revert i. induction H as [|x y xs l Hxy H IH]; intros i Hi Hv.
  - destruct i; discriminate.
  - destruct i as [|i]; simpl in *.
    + injection Hi as ->. constructor; auto.
    + constructor; auto.
Qed.

Lemma Forall2_nth_error_r (A B : Type) (P : A -> B -> Prop) (xs : list A)
    (l : list B) (i : nat) (c : B) :
  Forall2 P xs l -> nth_error l i = Some c ->
  exists x, nth_error xs i = Some x /\ P x c.
Proof.
  intros H. revert i. induction H as [|x y xs l Hxy H IH]; intros i Hi.
  - destruct i; discriminate.
  - destruct i as [|i]; simpl in *.
    + injection Hi as ->. eauto.
    + eauto.
Qed.

Lemma Forall2_nth_error_l (A B : Type) (P : A -> B -> Prop) (xs : list A)
    (l : list B) (i : nat) (x : A) :
  Forall2 P xs l -> nth_error xs i = Some x ->
  exists y, nth_error l i = Some y /\ P x y.
Proof.
  intros H. revert i. induction H as [|x' y xs l Hxy H IH]; intros i Hi.
  - destruct i; discriminate.
  - destruct i as [|i]; simpl in *.
    + injection Hi as ->. eauto.
    + eauto.
Qed.

Lemma Forall2_nth_both (A B : Type) (P : A -> B -> Prop) (xs : list A)
    (ys : list B) (da : A) (db : B) :
  Forall2 P xs ys ->
  List.length xs = List.length ys
  /\ forall i, (i < List.length xs)%nat -> P (nth i xs da) (nth i ys db).
Proof.
  induction 1 as [|x y xs ys Hxy H [IHl IHn]].
  - split; [reflexivity|]. intros i Hi. inversion Hi.
  - split; [simpl; now rewrite IHl|].
    intros [|i] Hi; [exact Hxy|]. apply IHn. simpl in Hi. lia.
Qed.

Section GatherFacts.
Variables St A : Type.
Implicit Types (lp : loop St A) (sched : list nat).

(** What resuming task [i] does, by cases on the task. *)
Lemma resume_task_cases lp (i : nat) :
  (resume_task lp i = lp
   /\ forall resume, nth_error (tasks lp) i <> Some (Suspended resume))
  \/ (exists resume,
         nth_error (tasks lp) i = Some (Suspended resume)
         /\ shared (resume_task lp i) = snd (resume (shared lp))
         /\ tasks (resume_task lp i)
            = list_set i (fst (resume (shared lp))) (tasks lp)
         /\ exception (resume_task lp i)
            = match exception lp, fst (resume (shared lp)) with
              | None, Raise e => Some e
              | ex, _ => ex
              end).
Proof.
  unfold resume_task.
  destruct (nth_error (tasks lp) i) as [[a|e|resume]|] eqn:E;
    try (left; split; [reflexivity | congruence]).
  right. exists resume. destruct (resume (shared lp)) as [c s'].
  repeat split.
Qed.

Lemma run_loop_cons (i : nat) sched lp :
  run_loop (i :: sched) lp = run_loop sched (resume_task lp i).
Proof. reflexivity. Qed.

Lemma run_loop_app sched sched' lp :
  run_loop (sched ++ sched') lp = run_loop sched' (run_loop sched lp).
Proof. apply fold_left_app. Qed.

Lemma resume_task_length lp (i : nat) :
  List.length (tasks (resume_task lp i)) = List.length (tasks lp).
Proof.
  destruct (resume_task_cases lp i) as [[-> _]|(k & _ & _ & -> & _)];
    [reflexivity | apply length_list_set].
Qed.

Lemma run_loop_length sched lp :
  List.length (tasks (run_loop sched lp)) = List.length (tasks lp).
Proof.
  revert lp. induction sched as [|i sched IH]; intros lp.
  - reflexivity.
  - rewrite run_loop_cons, IH. apply resume_task_length.
Qed.

(** A task other than the resumed one is left as it is, and so is a task
    that is done. *)
Lemma resume_task_other lp (i j : nat) :
  (i <> j \/ forall resume, nth_error (tasks lp) j <> Some (Suspended resume)) ->
  nth_error (tasks (resume_task lp i)) j = nth_error (tasks lp) j.
Proof.
  intros H.
  destruct (resume_task_cases lp i) as [[-> _]|(k & Hi & _ & -> & _)];
    [reflexivity|].
  apply nth_error_list_set_neq. intros ->.
  destruct H as [H|H]; [congruence | exact (H _ Hi)].
Qed.

Lemma run_loop_done sched lp (j : nat) (c : coro St A) :
  nth_error (tasks lp) j = Some c ->
  (forall resume, c <> Suspended resume) ->
  nth_error (tasks (run_loop sched lp)) j = Some c.
Proof.
  revert lp. induction sched as [|i sched IH]; intros lp Hj Hc.
  - exact Hj.
  - rewrite run_loop_cons. apply IH; [|exact Hc]. rewrite resume_task_other; [exact Hj|].
    right. intros resume. rewrite Hj. intros [= E]. exact (Hc _ E).
Qed.

(** The exception of the join, once set, is never replaced. *)
Lemma resume_task_exception lp (i : nat) (e : exn) :
  exception lp = Some e -> exception (resume_task lp i) = Some e.
Proof.
  intros H.
  destruct (resume_task_cases lp i) as [[-> _]|(k & _ & _ & _ & ->)];
    [exact H | now rewrite H].
Qed.

Lemma run_loop_exception sched lp (e : exn) :
  exception lp = Some e -> exception (run_loop sched lp) = Some e.
Proof.
  revert lp. induction sched as [|i sched IH]; intros lp H.
  - exact H.
  - rewrite run_loop_cons. apply IH, resume_task_exception, H.
Qed.

Lemma resume_task_consistent lp (i : nat) :
  join_consistent lp -> join_consistent (resume_task lp i).
Proof.
  intros H.
  destruct (resume_task_cases lp i) as [[-> _]|(k & Hi & _ & Ht & He)];
    [exact H|].
  assert (Hlen : (i < List.length (tasks lp))%nat)
    by (apply nth_error_Some; congruence).
  unfold join_consistent in *. rewrite He, Ht.
  destruct (exception lp) as [e0|].
  - destruct H as [j Hj]. exists j.
    rewrite nth_error_list_set_neq; [exact Hj | congruence].
  - destruct (fst (k (shared lp))) as [a|e|k'] eqn:Ec.
    + intros j e. destruct (Nat.eq_dec i j) as [<-|Hij].
      * rewrite nth_error_list_set_eq by exact Hlen. discriminate.
      * rewrite nth_error_list_set_neq by exact Hij. apply H.
    + exists i. now apply nth_error_list_set_eq.
    + intros j e. destruct (Nat.eq_dec i j) as [<-|Hij].
      * rewrite nth_error_list_set_eq by exact Hlen. discriminate.
      * rewrite nth_error_list_set_neq by exact Hij. apply H.
Qed.

Lemma run_loop_consistent sched lp :
  join_consistent lp -> join_consistent (run_loop sched lp).
Proof.
  revert lp. induction sched as [|i sched IH]; intros lp H.
  - exact H.
  - rewrite run_loop_cons. apply IH, resume_task_consistent, H.
Qed.

Lemma gather_consistent (aws : list (coro St A)) (s : St) :
  none_raised aws -> join_consistent (gather aws s).
Proof. intros H. exact H. Qed.

(** The values of the tasks, when all have returned, are aligned with the
    tasks. *)
Lemma returned_spec (ts : list (coro St A)) (vs : list A) :
  returned ts = Some vs <-> ts = map Return vs.
Proof.
  revert vs. induction ts as [|[a|e|k] ts IH]; intros vs; simpl.
  - split; [intros [= <-]; reflexivity|].
    destruct vs; [reflexivity | discriminate].
  - destruct (returned ts) as [vs'|]; simpl.
    + split.
      * intros [= <-]. simpl. f_equal. now apply IH.
      * destruct vs as [|v vs]; [discriminate|]. simpl. intros [= -> H].
        f_equal. f_equal. apply IH in H. congruence.
    + split; [discriminate|].
      destruct vs as [|v vs]; [discriminate|]. simpl. intros [= -> H].
      apply IH in H. discriminate.
  - split; [discriminate | destruct vs; discriminate].
  - split; [discriminate | destruct vs; discriminate].
Qed.

Lemma returned_none (ts : list (coro St A)) :
  returned ts = None ->
  exists i c, nth_error ts i = Some c /\ forall a, c <> Return a.
Proof.
  induction ts as [|[a|e|k] ts IH]; simpl; intros H.
  - discriminate.
  - destruct (returned ts); [discriminate|].
    destruct (IH eq_refl) as (i & c & Hi & Hc). now exists (S i), c.
  - exists 0%nat, (Raise e). split; [reflexivity | discriminate].
  - exists 0%nat, (Suspended k). split; [reflexivity | discriminate].
Qed.

(** A task that is not suspended stays so. *)
Lemma run_loop_not_suspended sched lp (i : nat) :
  not_suspended lp i -> not_suspended (run_loop sched lp) i.
Proof.
  intros H. destruct (nth_error (tasks lp) i) as [c|] eqn:E.
  - intros resume. rewrite (@run_loop_done sched lp i c E).
    + intros [= ->]. exact (H _ E).
    + intros resume' ->. exact (H _ E).
  - intros resume Hr.
    assert (Hlt : (i < List.length (tasks (run_loop sched lp)))%nat)
      by (apply nth_error_Some; congruence).
    rewrite run_loop_length in Hlt. apply nth_error_None in E. lia.
Qed.

(** One-shot tasks: each task of the schedule is done at the end. *)
Lemma resume_task_one_shot lp (i : nat) :
  Forall one_shot (tasks lp) ->
  Forall one_shot (tasks (resume_task lp i))
  /\ not_suspended (resume_task lp i) i.
Proof.
  intros H.
  destruct (resume_task_cases lp i) as [[-> Hno]|(k & Hi & _ & Ht & _)];
    [split; [exact H | exact Hno]|].
  assert (Hone : one_shot (Suspended k))
    by (rewrite Forall_forall in H; apply H; eapply nth_error_In; eauto).
  assert (Hdone : forall resume', fst (k (shared lp)) <> Suspended resume')
    by (intros resume'; now apply (Hone k)).
  unfold not_suspended. rewrite Ht. split.
  - apply Forall_list_set; [|exact H].
    intros resume s resume' E. exfalso. exact (Hdone _ E).
  - intros resume.
    rewrite nth_error_list_set_eq by (apply nth_error_Some; congruence).
    intros [= E]. exact (Hdone _ E).
Qed.

Lemma run_loop_one_shot sched lp :
  Forall one_shot (tasks lp) ->
  forall i, In i sched -> not_suspended (run_loop sched lp) i.
Proof.
  revert lp. induction sched as [|j sched IH]; intros lp H i Hi.
  - destruct Hi.
  - rewrite run_loop_cons. destruct (@resume_task_one_shot lp j H) as [H1 Hj].
    destruct Hi as [->|Hi].
    + now apply run_loop_not_suspended.
    + now apply IH.
Qed.

(** When no task is suspended any more, the join has its result. *)
Lemma gather_result_done lp :
  join_consistent lp -> (forall i, not_suspended lp i) ->
  exists out, gather_result lp = Some out.
Proof.
  unfold join_consistent, gather_result. intros Hc Hdone.
  destruct (exception lp) as [e|]; [eauto|].
  destruct (returned (tasks lp)) as [vals|] eqn:Er; [cbn; eauto|].
  exfalso. apply returned_none in Er. destruct Er as (i & c & Hi & Hr).
  destruct c as [a|e|resume].
  - exact (Hr a eq_refl).
  - exact (Hc _ _ Hi).
  - exact (Hdone i resume Hi).
Qed.

(** The first step at which a task raises decides the exception. *)
Lemma first_raise sched lp :
  exception lp = None -> none_raised (tasks lp) ->
  ~ none_raised (tasks (run_loop sched lp)) ->
  exists pre j post e,
    sched = pre ++ j :: post
    /\ none_raised (tasks (run_loop pre lp))
    /\ nth_error (tasks (run_loop (pre ++ [j]) lp)) j = Some (Raise e)
    /\ exception (run_loop (pre ++ [j]) lp) = Some e.
Proof.
  revert lp. induction sched as [|i sched IH]; intros lp He Hn Hr.
  - contradiction.
  - rewrite run_loop_cons in Hr.
    destruct (exception (resume_task lp i)) as [e|] eqn:He1.
    + exists [], i, sched, e. cbn [app run_loop fold_left].
      repeat split; auto.
      * destruct (resume_task_cases lp i) as [[E _]|(k & Hi & _ & Ht & Hx)].
        -- rewrite E in He1. congruence.
        -- rewrite He in Hx. rewrite Hx in He1. rewrite Ht.
           destruct (fst (k (shared lp))); try discriminate.
           injection He1 as ->. apply nth_error_list_set_eq.
           apply nth_error_Some. congruence.
    + assert (Hn1 : none_raised (tasks (resume_task lp i))).
      { pose proof (@resume_task_consistent lp i) as Hc.
        unfold join_consistent in Hc. rewrite He, He1 in Hc. auto. }
      destruct (IH _ He1 Hn1 Hr) as (pre & j & post & e & -> & H1 & H2 & H3).
      exists (i :: pre), j, post, e.
      rewrite <- !app_comm_cons, !run_loop_cons. auto.
Qed.

(** A task the schedule never picks is left as it was. *)
Lemma run_loop_skips sched lp (i : nat) :
  ~ In i sched ->
  nth_error (tasks (run_loop sched lp)) i = nth_error (tasks lp) i.
Proof.
  revert lp. induction sched as [|j sched IH]; intros lp Hi.
  - reflexivity.
  - rewrite run_loop_cons, IH by (intros H; apply Hi; now right).
    apply resume_task_other. left. intros ->. apply Hi. now left.
Qed.

Lemma resumes_to_snoc (P : St -> Prop) (c : coro St A)
    (resume : St -> coro St A * St) (s : St) :
  resumes_to P c (Suspended resume) -> P s ->
  resumes_to P c (fst (resume s)).
Proof.
  intros H Hs. remember (Suspended resume) as c' eqn:E.
  induction H as [c|k s0 c' Hs0 H IH].
  - subst c. apply resumes_step with (s := s); [exact Hs | apply resumes_refl].
  - apply resumes_step with (s := s0); auto.
Qed.

Lemma Forall2_resumes_refl (P : St -> Prop) (aws : list (coro St A)) :
  Forall2 (resumes_to P) aws aws.
Proof. induction aws; constructor; auto using resumes_refl. Qed.

Lemma resume_task_resumes (P : St -> Prop) (orig : list (coro St A)) lp
    (i : nat) :
  Forall2 (resumes_to P) orig (tasks lp) -> P (shared lp) ->
  Forall2 (resumes_to P) orig (tasks (resume_task lp i)).
Proof.
  intros H Hs.
  destruct (resume_task_cases lp i) as [[-> _]|(k & Hi & _ & -> & _)];
    [exact H|].
  eapply Forall2_list_set; [exact H | exact Hi |].
  intros c Hc. now apply resumes_to_snoc.
Qed.

(** Each task of the loop is the awaitable it was made from, resumed in
    states the loop passed through. *)
Lemma run_loop_resumes (P : St -> Prop) (orig : list (coro St A)) sched lp :
  Forall2 (resumes_to P) orig (tasks lp) ->
  (forall k, (k < List.length sched)%nat ->
     P (shared (run_loop (firstn k sched) lp))) ->
  Forall2 (resumes_to P) orig (tasks (run_loop sched lp)).
Proof.
  revert lp. induction sched as [|i sched IH]; intros lp H HP; [exact H|].
  rewrite run_loop_cons. apply IH.
  - apply resume_task_resumes; [exact H|].
    apply (HP 0%nat). simpl. lia.
  - intros k Hk. apply (HP (S k)). simpl. lia.
Qed.

End GatherFacts.

(** ** The batch methods of [AsyncLM] *)

Section ComprehensionFacts.
Variables St A B : Type.
Variable f : A -> method St B.
Variables (da : A) (db : B).

Local Abbreviation after := (after_calls f).

(** A comprehension returns exactly when each call returns, made in the
    state the calls before it have left; its value lists the values of the
    calls in order. *)
Lemma comprehension_ok (xs : list A) (s s' : St) (ys : list B) :
  comprehension f xs s = (Ok ys, s')
  <-> List.length ys = List.length xs
      /\ (forall i, (i < List.length xs)%nat ->
            fst (f (nth i xs da) (after (firstn i xs) s)) = Ok (nth i ys db))
      /\ s' = after xs s.
Proof.
  revert s s' ys. induction xs as [|x xs IH]; intros s s' ys.
  - cbn. split.
    + intros [= <- <-]. repeat split. intros i Hi. lia.
    + intros (Hl & _ & ->). destruct ys; [reflexivity | discriminate].
  - cbn [comprehension]. unfold bind at 1.
    destruct (f x s) as [[y|e] s1] eqn:Ex.
    + unfold bind at 1.
      destruct (comprehension f xs s1) as [[ys'|e] s2] eqn:Ec.
      * apply IH in Ec. destruct Ec as (Hl & Hi & ->). unfold ret. split.
        -- intros [= <- <-]. repeat split.
           ++ simpl. now rewrite Hl.
           ++ intros [|i] Hlt; cbn.
              ** unfold after_calls. cbn. now rewrite Ex.
              ** unfold after_calls. cbn. rewrite Ex. cbn. apply Hi.
                 simpl in Hlt. lia.
           ++ unfold after_calls. cbn. now rewrite Ex.
        -- intros (Hl' & Hi' & ->).
           destruct ys as [|y0 ys0]; [discriminate|].
           pose proof (Hi' 0%nat ltac:(simpl; lia)) as H0.
           unfold after_calls in H0. cbn in H0. rewrite Ex in H0. cbn in H0.
           injection H0 as <-.
           assert (Ec : comprehension f xs s1 = (Ok ys0, after xs s1)).
           { apply IH. repeat split.
             - simpl in Hl'. lia.
             - intros i Hlt. specialize (Hi' (S i) ltac:(simpl; lia)).
               unfold after_calls in Hi'. cbn in Hi'. rewrite Ex in Hi'. exact Hi'. }
           assert (E2 : comprehension f xs s1 = (Ok ys', after xs s1))
             by (apply IH; repeat split; assumption).
           rewrite Ec in E2. injection E2 as <-.
           unfold after_calls. cbn. now rewrite Ex.
      * split; [discriminate|]. intros (Hl' & Hi' & ->).
        destruct ys as [|y0 ys0]; [discriminate|].
        assert (Ec' : comprehension f xs s1 = (Ok ys0, after xs s1)).
        { apply IH. repeat split.
          - simpl in Hl'. lia.
          - intros i Hlt. specialize (Hi' (S i) ltac:(simpl; lia)).
            unfold after_calls in Hi'. cbn in Hi'. rewrite Ex in Hi'. exact Hi'. }
        congruence.
    + split; [discriminate|]. intros (_ & Hi' & _).
      specialize (Hi' 0%nat ltac:(simpl; lia)).
      unfold after_calls in Hi'. cbn in Hi'. rewrite Ex in Hi'. discriminate.
Qed.

(** The first call that raises ends the comprehension with its exception;
    the calls after it are never made. *)
Lemma comprehension_first_err (xs : list A) (s : St) (i : nat) (e : exn) :
  (i < List.length xs)%nat ->
  fst (f (nth i xs da) (after (firstn i xs) s)) = Err e ->
  (forall j, (j < i)%nat ->
     exists y, fst (f (nth j xs da) (after (firstn j xs) s)) = Ok y) ->
  comprehension f xs s = (Err e, after (firstn (S i) xs) s).
Proof.
  revert s i. induction xs as [|x xs IH]; intros s i Hi He Hbefore.
  - inversion Hi.
  - cbn [comprehension]. unfold bind at 1. destruct i as [|i].
    + unfold after_calls in *. cbn in He |- *.
      destruct (f x s) as [[y|e'] s1]; cbn in He; [discriminate|].
      now injection He as ->.
    + destruct (Hbefore 0%nat ltac:(lia)) as [y Hy].
      unfold after_calls in Hy. cbn in Hy.
      destruct (f x s) as [[y'|e'] s1] eqn:Ex; cbn in Hy; [|discriminate].
      unfold bind at 1. rewrite (IH s1 i).
      * unfold after_calls. cbn. now rewrite Ex.
      * simpl in Hi. lia.
      * unfold after_calls in He |- *. cbn in He. now rewrite Ex in He.
      * intros j Hj. destruct (Hbefore (S j) ltac:(lia)) as [yj Hyj].
        exists yj. unfold after_calls in Hyj |- *. cbn in Hyj.
        now rewrite Ex in Hyj.
Qed.

End ComprehensionFacts.

Section BatchFacts.
Context {T : Torch} {St : Type} {LM : AsyncLM St}.

Lemma first_unequal_none (t : Tensor) (k : nat) (rest : list Tensor) :
  first_unequal t k rest = None <-> forallb (same_size t) rest = true.
Proof.
  revert k. induction rest as [|u rest IH]; intros k; cbn.
  - split; reflexivity.
  - destruct (same_size t u); [apply IH | split; discriminate].
Qed.

(** [torch.stack] on a non-empty list, by whether the tensors after the
    first have its size. *)
Lemma torch_stack_cons (t : Tensor) (rest : list Tensor) :
  if forallb (same_size t) rest
  then torch_stack (t :: rest) = Ok (t :: rest)
  else exists e, torch_stack (t :: rest) = Err e.
Proof.
  unfold torch_stack. pose proof (first_unequal_none t 1 rest) as H.
  destruct (forallb (same_size t) rest);
    destruct (first_unequal t 1 rest) as [[k u]|].
  - destruct H as [_ H]. discriminate (H eq_refl).
  - reflexivity.
  - eauto.
  - destruct H as [H _]. discriminate (H eq_refl).
Qed.

(** [torch.stack] succeeds on a non-empty list of tensors of one size, and
    then its rows are the tensors. *)
Lemma torch_stack_ok (tensors rows : list Tensor) :
  torch_stack tensors = Ok rows
  <-> tensors = rows /\ rows <> []
      /\ forall i, (i < List.length rows)%nat ->
           List.length (nth i rows []) = List.length (nth 0 rows []).
Proof.
  destruct tensors as [|t rest].
  - split; [discriminate|]. intros (<- & H & _). congruence.
  - pose proof (torch_stack_cons t rest) as Hs.
    destruct (forallb (same_size t) rest) eqn:E;
      [rewrite Hs | destruct Hs as [e0 ->]].
    + split.
      * intros [= <-]. repeat split; [discriminate|].
        intros [|i] Hi; [reflexivity|]. cbn in *.
        rewrite forallb_forall in E.
        assert (Hin : In (nth i rest []) rest) by (apply nth_In; lia).
        apply E in Hin. now apply Nat.eqb_eq in Hin.
      * now intros (<- & _).
    + split; [discriminate|]. intros (<- & _ & H). exfalso.
      assert (E' : forallb (same_size t) rest = true); [|congruence].
      apply forallb_forall. intros u Hu.
      destruct (In_nth _ _ [] Hu) as (i & Hi & <-).
      apply Nat.eqb_eq. apply (H (S i)). simpl.
      apply -> Nat.succ_lt_mono. exact Hi.
Qed.

Lemma batch_sync_ok (reqs : list (list Z)) (self self' : St)
    (rows : list Tensor) :
  batch_next_token_logprobs_sync reqs self = (Ok rows, self')
  <-> comprehension next_token_logprobs_sync reqs self = (Ok rows, self')
      /\ torch_stack rows = Ok rows.
Proof.
  unfold batch_next_token_logprobs_sync, bind.
  destruct (comprehension next_token_logprobs_sync reqs self)
    as [[logprobs|e] s1].
  - split.
    + intros [= H <-]. pose proof H as H'. apply torch_stack_ok in H'.
      destruct H' as (-> & _). auto.
    + intros ([= -> ->] & H). now rewrite H.
  - split; [discriminate | intros [[=] _]].
Qed.

(** C2. For a non-empty request list, the blocking batch returns exactly
    when every per-item blocking call returns (each made after the calls for
    the items before it) and the results have one size; the tensor it
    returns has one row per request, and row [i] is the result of
    [next_token_logprobs_sync] on element [i]. *)
Theorem batch_sync_is_stack_of_items :
  forall (reqs : list (list Z)) (self self' : St) (rows : list Tensor),
    reqs <> [] ->
    (batch_next_token_logprobs_sync reqs self = (Ok rows, self')
     <-> List.length rows = List.length reqs
         /\ (forall i, (i < List.length reqs)%nat ->
               fst (next_token_logprobs_sync (nth i reqs [])
                      (state_after (firstn i reqs) self))
               = Ok (nth i rows []))
         /\ (forall i, (i < List.length reqs)%nat ->
               List.length (nth i rows []) = List.length (nth 0 rows []))
         /\ self' = state_after reqs self).
Proof.
  intros reqs self self' rows Hne.
  rewrite batch_sync_ok.
  pose proof (comprehension_ok next_token_logprobs_sync [] [] reqs self self'
                rows) as Hc.
  rewrite Hc, torch_stack_ok. clear Hc. unfold state_after.
  split.
  - intros ((Hl & Hi & Hs) & (_ & _ & Hsz)). repeat split; auto.
    rewrite <- Hl. exact Hsz.
  - intros (Hl & Hi & Hsz & Hs). repeat split; auto.
    + intros ->. destruct reqs; [congruence | discriminate].
    + rewrite Hl. exact Hsz.
Qed.

Lemma run_loop_no_tasks (sched : list nat) (self : St) :
  run_loop sched (gather (@nil (coro St Tensor)) self) = gather [] self.
Proof.
  induction sched as [|i sched IH]; [reflexivity|].
  rewrite run_loop_cons. unfold resume_task. cbn [tasks gather].
  destruct i; exact IH.
Qed.

(** C10. On the empty request list both batch methods raise the error of
    [torch.stack] on an empty list of tensors; neither returns an empty
    result. *)
Theorem empty_batch_raises :
  forall (self : St),
    fst (batch_next_token_logprobs_sync [] self) = Err empty_stack_error
    /\ forall sched : list nat,
         fst (batch_next_token_logprobs sched [] self)
         = Some (Err empty_stack_error).
Proof.
  intros self. split; [reflexivity|]. intros sched.
  unfold batch_next_token_logprobs. cbn [map].
  rewrite run_loop_no_tasks. reflexivity.
Qed.

(** The coroutines a batch hands to [gather] have not run yet. *)
Lemma fresh_tasks_none_raised (reqs : list (list Z)) :
  none_raised (map next_token_logprobs reqs).
Proof.
  intros i e H. apply nth_error_In, in_map_iff in H.
  destruct H as (ids & H & _).
  destruct (next_token_logprobs_async_def ids) as [k Hk]. congruence.
Qed.

Lemma batch_async_outcome (sched : list nat) (reqs : list (list Z)) (self : St) :
  fst (batch_next_token_logprobs sched reqs self)
  = match gather_result
            (run_loop sched (gather (map next_token_logprobs reqs) self)) with
    | None => None
    | Some (Err e) => Some (Err e)
    | Some (Ok logprobs) => Some (torch_stack logprobs)
    end.
Proof. reflexivity. Qed.

(** The non-blocking batch returns exactly when no member raised, all
    have returned and their values stack. *)
Lemma batch_async_ok (sched : list nat) (reqs : list (list Z)) (self : St)
    (rows : list Tensor) :
  fst (batch_next_token_logprobs sched reqs self) = Some (Ok rows)
  -> tasks (run_loop sched (gather (map next_token_logprobs reqs) self))
     = map Return rows
     /\ torch_stack rows = Ok rows.
Proof.
  rewrite batch_async_outcome. unfold gather_result.
  destruct (exception _) as [e|]; [discriminate|].
  destruct (returned _) as [logprobs|] eqn:Er; [|discriminate].
  cbn. intros [= H]. pose proof H as H'. apply torch_stack_ok in H'.
  destruct H' as (-> & _). split; [now apply returned_spec | exact H].
Qed.

Lemma batch_async_state (sched : list nat) (reqs : list (list Z)) (self : St) :
  snd (batch_next_token_logprobs sched reqs self)
  = shared (run_loop sched (gather (map next_token_logprobs reqs) self)).
Proof. reflexivity. Qed.

(** Every task of a batch is the coroutine of the request at its index,
    resumed in the attributes the loop had when it picked the task. *)
Lemma batch_tasks_resume (sched : list nat) (reqs : list (list Z)) (self : St) :
  Forall2 (resumes_to (batch_states sched reqs self))
    (map next_token_logprobs reqs)
    (tasks (run_loop sched (gather (map next_token_logprobs reqs) self))).
Proof.
  apply run_loop_resumes.
  - apply Forall2_resumes_refl.
  - intros k Hk. exists k. split; [exact Hk | reflexivity].
Qed.

(** The rows of a batch that returns: row [i] is the value the coroutine of
    request [i] returned. *)
Lemma batch_rows_resume (sched : list nat) (reqs : list (list Z)) (self : St)
    (rows : list Tensor) :
  fst (batch_next_token_logprobs sched reqs self) = Some (Ok rows) ->
  List.length rows = List.length reqs
  /\ forall i, (i < List.length reqs)%nat ->
       resumes_to (batch_states sched reqs self)
         (next_token_logprobs (nth i reqs []))
         (Return (nth i rows [])).
Proof.
  intros H. apply batch_async_ok in H. destruct H as [Ht _].
  pose proof (batch_tasks_resume sched reqs self) as Hr. rewrite Ht in Hr.
  apply (Forall2_nth_both (next_token_logprobs []) (Return [])) in Hr.
  destruct Hr as [Hl Hn]. rewrite !length_map in Hl. split; [now symmetry|].
  intros i Hi. specialize (Hn i). rewrite length_map in Hn.
  specialize (Hn Hi). now rewrite !map_nth in Hn.
Qed.

(** The exception of a batch that fails before [torch.stack]: the coroutine
    of one of the requests raised it. *)
Lemma batch_exception_resume (sched : list nat) (reqs : list (list Z))
    (self : St) (e : exn) :
  exception (run_loop sched (gather (map next_token_logprobs reqs) self))
  = Some e ->
  exists i ids,
    nth_error reqs i = Some ids
    /\ resumes_to (batch_states sched reqs self)
         (next_token_logprobs ids) (Raise e).
Proof.
  intros He.
  pose proof (run_loop_consistent sched _
                (gather_consistent self (fresh_tasks_none_raised reqs)))
    as Hc.
  unfold join_consistent in Hc. rewrite He in Hc. destruct Hc as [i Hi].
  destruct (Forall2_nth_error_r _ (batch_tasks_resume sched reqs self) Hi)
    as (c & Hc & Hr).
  rewrite nth_error_map in Hc.
  destruct (nth_error reqs i) as [ids|] eqn:Ei; [|discriminate].
  injection Hc as <-. eauto.
Qed.

(** A member that raises when the loop resumes it, while the join is still
    waiting, fails the batch with its exception. *)
Lemma batch_raise_when_resumed (pre later : list nat) (reqs : list (list Z))
    (self : St) (j : nat) (resume : St -> coro St Tensor * St) (e : exn) :
  fst (batch_next_token_logprobs pre reqs self) = None ->
  nth_error
    (tasks (run_loop pre (gather (map next_token_logprobs reqs) self))) j
  = Some (Suspended resume) ->
  fst (resume (snd (batch_next_token_logprobs pre reqs self))) = Raise e ->
  fst (batch_next_token_logprobs (pre ++ j :: later) reqs self)
  = Some (Err e).
Proof.
  rewrite batch_async_state, !batch_async_outcome.
  replace (pre ++ j :: later) with ((pre ++ [j]) ++ later)
    by (rewrite <- app_assoc; reflexivity).
  rewrite !run_loop_app.
  set (lp := run_loop pre (gather (map next_token_logprobs reqs) self)).
  intros Hwait Hj He.
  assert (Hex : exception lp = None).
  { unfold gather_result in Hwait.
    destruct (exception lp); [discriminate | reflexivity]. }
  change (run_loop [j] lp) with (resume_task lp j).
  destruct (resume_task_cases lp j) as [[_ Hno]|(k & Hk & _ & _ & Hx)];
    [exfalso; exact (Hno _ Hj)|].
  assert (k = resume) by congruence. subst k.
  rewrite Hex, He in Hx. unfold gather_result.
  now rewrite (run_loop_exception later _ Hx).
Qed.

(** C7. The non-blocking batch under any schedule of its tasks.  If a
    member has raised, there is a first step of the schedule at which a
    member raised, and from that step on the batch fails with exactly that
    member's exception, whatever the other members do later.  A batch that
    returns has all its members returned, one row per request in request
    order.  A batch that fails with an exception no member raised fails in
    [torch.stack], after all members returned.  In the blocking batch the
    first per-item call that raises ends the batch with its exception, and
    the calls after it are not made.

    By what the members do when they are resumed: while the join is still
    waiting, a member whose coroutine raises [e] when the loop resumes it
    fails the batch with [e], whatever the loop runs afterwards; this holds
    for a task at any point of its run, and in particular for the
    coroutine of request [j] at its first resumption.  The exception of a
    batch that fails is one the coroutine of one of its requests raised, or
    the error of [torch.stack] on the values the coroutines of all requests
    returned; the rows of a batch that returns are the values the
    coroutines of its requests returned, row [i] from request [i]. *)
Theorem batch_fails_with_first_error :
  forall (sched : list nat) (reqs : list (list Z)) (self : St),
    let run := fun prefix =>
      run_loop prefix (gather (map next_token_logprobs reqs) self) in
    (forall i e,
        nth_error (tasks (run sched)) i = Some (Raise e) ->
        exists pre j post e1,
          sched = pre ++ j :: post
          /\ none_raised (tasks (run pre))
          /\ nth_error (tasks (run (pre ++ [j]))) j = Some (Raise e1)
          /\ forall later,
               fst (batch_next_token_logprobs (pre ++ j :: later) reqs self)
               = Some (Err e1))
    /\ (forall rows,
          fst (batch_next_token_logprobs sched reqs self) = Some (Ok rows) ->
          tasks (run sched) = map Return rows
          /\ List.length rows = List.length reqs)
    /\ (forall e,
          fst (batch_next_token_logprobs sched reqs self) = Some (Err e) ->
          (exists i, nth_error (tasks (run sched)) i = Some (Raise e))
          \/ (exists logprobs,
                 tasks (run sched) = map Return logprobs
                 /\ torch_stack logprobs = Err e))
    /\ (forall i e,
          (i < List.length reqs)%nat ->
          fst (next_token_logprobs_sync (nth i reqs [])
                 (state_after (firstn i reqs) self)) = Err e ->
          (forall j, (j < i)%nat ->
             exists d,
               fst (next_token_logprobs_sync (nth j reqs [])
                      (state_after (firstn j reqs) self)) = Ok d) ->
          batch_next_token_logprobs_sync reqs self
          = (Err e, state_after (firstn (S i) reqs) self))
    /\ (forall pre j resume e,
          fst (batch_next_token_logprobs pre reqs self) = None ->
          nth_error (tasks (run pre)) j = Some (Suspended resume) ->
          fst (resume (snd (batch_next_token_logprobs pre reqs self)))
          = Raise e ->
          forall later,
            fst (batch_next_token_logprobs (pre ++ j :: later) reqs self)
            = Some (Err e))
    /\ (forall pre j resume e,
          (j < List.length reqs)%nat ->
          ~ In j pre ->
          fst (batch_next_token_logprobs pre reqs self) = None ->
          next_token_logprobs (nth j reqs []) = Suspended resume ->
          fst (resume (snd (batch_next_token_logprobs pre reqs self)))
          = Raise e ->
          forall later,
            fst (batch_next_token_logprobs (pre ++ j :: later) reqs self)
            = Some (Err e))
    /\ (forall e,
          fst (batch_next_token_logprobs sched reqs self) = Some (Err e) ->
          (exists i ids,
              nth_error reqs i = Some ids
              /\ resumes_to (batch_states sched reqs self)
                   (next_token_logprobs ids) (Raise e))
          \/ (exists logprobs,
                 List.length logprobs = List.length reqs
                 /\ (forall i, (i < List.length reqs)%nat ->
                       resumes_to (batch_states sched reqs self)
                         (next_token_logprobs (nth i reqs []))
                         (Return (nth i logprobs [])))
                 /\ torch_stack logprobs = Err e))
    /\ (forall rows,
          fst (batch_next_token_logprobs sched reqs self) = Some (Ok rows) ->
          List.length rows = List.length reqs
          /\ forall i, (i < List.length reqs)%nat ->
               resumes_to (batch_states sched reqs self)
                 (next_token_logprobs (nth i reqs []))
                 (Return (nth i rows []))).
Proof.
  intros sched reqs self run.
  pose proof (fresh_tasks_none_raised reqs) as Hfresh.
  assert (Hcons : join_consistent (run sched))
    by (apply run_loop_consistent, gather_consistent, Hfresh).
  split; [|split; [|split; [|split; [|split; [|split; [|split]]]]]].
  - intros i e Hi.
    destruct (@first_raise _ _ sched (gather (map next_token_logprobs reqs) self))
      as (pre & j & post & e1 & -> & Hpre & Hj & Hex); auto.
    { intros H. exact (H _ _ Hi). }
    exists pre, j, post, e1. repeat split; auto.
    intros later. rewrite batch_async_outcome.
    replace (pre ++ j :: later) with ((pre ++ [j]) ++ later)
      by (rewrite <- app_assoc; reflexivity).
    rewrite run_loop_app. unfold gather_result.
    now rewrite (run_loop_exception later _ Hex).
  - intros rows. rewrite batch_async_outcome. fold (run sched).
    unfold gather_result.
    destruct (exception (run sched)) as [e|]; [discriminate|].
    destruct (returned (tasks (run sched))) as [logprobs|] eqn:Er;
      [|discriminate].
    cbn. intros [= H]. apply torch_stack_ok in H. destruct H as (-> & _).
    apply returned_spec in Er. split; [exact Er|].
    apply (f_equal (@List.length _)) in Er.
    unfold run in Er. rewrite run_loop_length in Er. cbn in Er.
    now rewrite !length_map in Er.
  - intros e. rewrite batch_async_outcome. fold (run sched).
    unfold gather_result. unfold join_consistent in Hcons.
    destruct (exception (run sched)) as [e0|].
    + intros [= <-]. left. exact Hcons.
    + destruct (returned (tasks (run sched))) as [logprobs|] eqn:Er;
        [|discriminate].
      cbn. intros [= H]. right. exists logprobs. split; [|exact H].
      now apply returned_spec.
  - intros i e Hi He Hbefore.
    unfold batch_next_token_logprobs_sync, bind.
    now rewrite (comprehension_first_err next_token_logprobs_sync []
                   reqs self Hi He Hbefore).
  - intros pre j resume e Hwait Hj He later.
    now apply batch_raise_when_resumed with (resume := resume).
  - intros pre j resume e Hj Hpre Hwait Hc He later.
    apply batch_raise_when_resumed with (resume := resume); auto.
    rewrite run_loop_skips by exact Hpre. cbn [tasks gather].
    rewrite nth_error_map, (nth_error_nth' reqs [] Hj). cbn.
    now rewrite Hc.
  - intros e. rewrite batch_async_outcome. fold (run sched).
    unfold gather_result.
    destruct (exception (run sched)) as [e0|] eqn:Ex.
    + intros [= <-]. left. now apply batch_exception_resume.
    + destruct (returned (tasks (run sched))) as [logprobs|] eqn:Er;
        [|discriminate].
      cbn. intros [= H]. right. exists logprobs.
      apply returned_spec in Er.
      pose proof (batch_tasks_resume sched reqs self) as Hr.
      fold (run sched) in Hr. rewrite Er in Hr.
      apply (Forall2_nth_both (next_token_logprobs []) (Return [])) in Hr.
      destruct Hr as [Hl Hn]. rewrite !length_map in Hl.
      split; [now symmetry|]. split; [|exact H].
      intros i Hi. specialize (Hn i). rewrite length_map in Hn.
      specialize (Hn Hi). now rewrite !map_nth in Hn.
  - intros rows. apply batch_rows_resume.
Qed.

End BatchFacts.

(** ** Deterministic backends *)

(** A coroutine made by [async_def] from a body whose outcome is always [r]
    always yields [r]. *)
Lemma async_def_yields (St A : Type) (Inv : St -> Prop) (r : result A)
    (body : method St A) :
  (forall s, Inv s -> fst (body s) = r /\ Inv (snd (body s))) ->
  always_yields Inv r (async_def body).
Proof.
  intros H. apply yields_suspended; intros s Hs;
    destruct (H s Hs) as [Hr Hi]; destruct (body s) as [[a|e] s']; cbn in *;
    auto using yields_return, yields_raise.
Qed.

Section Deterministic.
Context {T : Torch} {St : Type} {LM : AsyncLM St}.
Variable Inv : St -> Prop.
Variable f : list Z -> result Tensor.
Hypothesis async_yields :
  forall token_ids, always_yields Inv (f token_ids) (next_token_logprobs token_ids).
Hypothesis sync_yields :
  forall token_ids s, Inv s ->
    fst (next_token_logprobs_sync token_ids s) = f token_ids
    /\ Inv (snd (next_token_logprobs_sync token_ids s)).

Lemma gather_aligned (reqs : list (list Z)) (self : St) :
  Inv self -> aligned Inv f reqs (gather (map next_token_logprobs reqs) self).
Proof.
  intros H. split; [exact H|]. cbn.
  induction reqs; cbn; constructor; auto.
Qed.

Lemma resume_task_aligned (reqs : list (list Z)) (lp : loop St Tensor)
    (i : nat) :
  aligned Inv f reqs lp -> aligned Inv f reqs (resume_task lp i).
Proof.
  intros [Hs Ht].
  destruct (resume_task_cases lp i) as [[-> _]|(k & Hi & Hsh & Htk & _)];
    [split; assumption|].
  unfold aligned. rewrite Hsh, Htk.
  destruct (Forall2_nth_error_r _ Ht Hi) as (ids & _ & Hy).
  inversion Hy as [| |resume Hc Hinv E]; subst. split; [auto|].
  apply (Forall2_list_set _ _ Ht Hi). intros x Hx.
  inversion Hx; subst; auto.
Qed.

Lemma run_loop_aligned (reqs : list (list Z)) (sched : list nat)
    (lp : loop St Tensor) :
  aligned Inv f reqs lp -> aligned Inv f reqs (run_loop sched lp).
Proof.
  revert lp. induction sched as [|i sched IH]; intros lp H.
  - exact H.
  - rewrite run_loop_cons. apply IH, resume_task_aligned, H.
Qed.

(** When all tasks have returned, the value at each index is the outcome of
    the request at that index. *)
Lemma aligned_returned (reqs : list (list Z)) (vals : list Tensor) :
  Forall2 (fun ids c => always_yields Inv (f ids) c) reqs (map Return vals) ->
  Forall2 (fun ids v => f ids = Ok v) reqs vals.
Proof.
  revert reqs. induction vals as [|v vals IH]; intros reqs H;
    inversion H as [|ids c reqs' l' Hy Hrest]; subst; constructor.
  - now inversion Hy.
  - now apply IH.
Qed.

(** The comprehension of the blocking batch returns the outcomes of the
    requests, when they are all values. *)
Lemma comprehension_outcomes (reqs : list (list Z)) (self : St)
    (vals : list Tensor) :
  Inv self ->
  (fst (comprehension next_token_logprobs_sync reqs self) = Ok vals
   <-> Forall2 (fun ids v => f ids = Ok v) reqs vals).
Proof.
  revert self vals. induction reqs as [|ids reqs IH]; intros self vals Hs.
  - cbn. split.
    + intros [= <-]. constructor.
    + intros H. inversion H. reflexivity.
  - cbn [comprehension]. unfold bind at 1.
    destruct (sync_yields ids Hs) as [Hf Hs1].
    destruct (next_token_logprobs_sync ids self) as [[y|e] s1]; cbn in Hf, Hs1.
    + unfold bind at 1. specialize (IH s1).
      destruct (comprehension next_token_logprobs_sync reqs s1)
        as [[ys|e] s2]; cbn in *.
      * split.
        -- intros [= <-]. constructor; [now symmetry|]. now apply IH.
        -- intros H. inversion H as [|? v ? vs Hv Hvs]; subst.
           rewrite <- Hf in Hv. injection Hv as <-.
           apply IH in Hvs; [|exact Hs1]. now injection Hvs as <-.
      * split; [discriminate|].
        intros H. inversion H as [|? v ? vs Hv Hvs]; subst.
        apply IH in Hvs; [discriminate | exact Hs1].
    + cbn. split; [discriminate|].
      intros H. inversion H as [|? v ? vs Hv Hvs]; subst. congruence.
Qed.

(** When the comprehension raises, the exception is the outcome of one of
    the requests. *)
Lemma comprehension_outcomes_err (reqs : list (list Z)) (self : St)
    (e : exn) :
  Inv self ->
  fst (comprehension next_token_logprobs_sync reqs self) = Err e ->
  exists ids, In ids reqs /\ f ids = Err e.
Proof.
  revert self. induction reqs as [|ids reqs IH]; intros self Hs.
  - discriminate.
  - cbn [comprehension]. unfold bind at 1.
    destruct (sync_yields ids Hs) as [Hf Hs1].
    destruct (next_token_logprobs_sync ids self) as [[y|e'] s1]; cbn in Hf, Hs1.
    + unfold bind at 1. specialize (IH s1 Hs1).
      destruct (comprehension next_token_logprobs_sync reqs s1)
        as [[ys|e'] s2]; cbn in *; [discriminate|].
      intros [= ->]. destruct (IH eq_refl) as (ids' & Hin & He).
      exists ids'. auto.
    + cbn. intros [= ->]. exists ids. split; [now left | now symmetry].
Qed.

Lemma batch_async_cases (sched : list nat) (reqs : list (list Z)) (self : St)
    (out : result (list Tensor)) :
  Inv self ->
  fst (batch_next_token_logprobs sched reqs self) = Some out ->
  batch_outcome_of f reqs out.
Proof.
  intros Hs. rewrite batch_async_outcome. unfold gather_result.
  pose proof (run_loop_aligned sched (gather_aligned reqs Hs)) as [_ Hal].
  pose proof (run_loop_consistent sched _
                (gather_consistent self (fresh_tasks_none_raised reqs)))
    as Hc.
  unfold join_consistent in Hc. destruct (exception _) as [e0|].
  - intros [= <-]. right. destruct Hc as [i Hi].
    destruct (Forall2_nth_error_r _ Hal Hi) as (ids & Hids & Hy).
    exists ids, e0. repeat split; [eapply nth_error_In; eauto|].
    now inversion Hy.
  - destruct (returned _) as [vals|] eqn:Er; [|discriminate].
    cbn. intros [= <-]. left. exists vals. split; [|reflexivity].
    apply returned_spec in Er. rewrite Er in Hal.
    now apply aligned_returned.
Qed.

Lemma batch_sync_cases (reqs : list (list Z)) (self : St) :
  Inv self ->
  batch_outcome_of f reqs (fst (batch_next_token_logprobs_sync reqs self)).
Proof.
  intros Hs. unfold batch_next_token_logprobs_sync, bind.
  destruct (comprehension next_token_logprobs_sync reqs self)
    as [[vals|e] s1] eqn:Ec.
  - left. exists vals. split; [|reflexivity].
    apply (comprehension_outcomes reqs vals Hs). now rewrite Ec.
  - right. destruct (@comprehension_outcomes_err reqs self e Hs)
      as (ids & Hin & He); [now rewrite Ec|].
    exists ids, e. auto.
Qed.

Lemma outcomes_no_err (reqs : list (list Z)) (vals : list Tensor)
    (ids : list Z) (e : exn) :
  Forall2 (fun ids v => f ids = Ok v) reqs vals ->
  In ids reqs -> f ids <> Err e.
Proof.
  induction 1 as [|ids' v reqs vals Hv H IH]; intros Hin.
  - destruct Hin.
  - destruct Hin as [<-|Hin]; [congruence | auto].
Qed.

Lemma outcomes_functional (reqs : list (list Z)) (vals vals' : list Tensor) :
  Forall2 (fun ids v => f ids = Ok v) reqs vals ->
  Forall2 (fun ids v => f ids = Ok v) reqs vals' -> vals = vals'.
Proof.
  intros H. revert vals'. induction H as [|ids v reqs vals Hv H IH];
    intros vals' H'; inversion H'; subst; [reflexivity|].
  f_equal; [congruence | auto].
Qed.

Lemma outcomes_nth (reqs : list (list Z)) (vals : list Tensor) :
  Forall2 (fun ids v => f ids = Ok v) reqs vals ->
  List.length vals = List.length reqs
  /\ forall i, (i < List.length reqs)%nat ->
       f (nth i reqs []) = Ok (nth i vals []).
Proof.
  induction 1 as [|ids v reqs vals Hv H [IHl IHn]].
  - split; [reflexivity|]. intros i Hi. inversion Hi.
  - split; [simpl; now rewrite IHl|].
    intros [|i] Hi; [exact Hv|]. apply IHn. simpl in Hi. lia.
Qed.

(** Resuming one task again and again brings it to its end. *)
Lemma task_finishes (reqs : list (list Z)) (i : nat) (c : coro St Tensor)
    (r : result Tensor) :
  always_yields Inv r c ->
  forall lp, aligned Inv f reqs lp -> nth_error (tasks lp) i = Some c ->
  exists k, forall resume,
      nth_error (tasks (run_loop (repeat i k) lp)) i <> Some (Suspended resume).
Proof.
  induction 1 as [a Ha|e He|resume Hy IH Hinv]; intros lp Hal Hi.
  - exists 0%nat. intros resume. cbn. congruence.
  - exists 0%nat. intros resume. cbn. congruence.
  - destruct (resume_task_cases lp i) as [[_ Hno]|(k0 & Hi0 & _ & Htk & _)];
      [exfalso; exact (Hno _ Hi)|].
    assert (k0 = resume) by congruence. subst k0.
    destruct (IH (shared lp) (proj1 Hal) (resume_task lp i)) as [k Hk].
    + now apply resume_task_aligned.
    + rewrite Htk. apply nth_error_list_set_eq, nth_error_Some. congruence.
    + exists (S k). cbn [repeat]. now rewrite run_loop_cons.
Qed.

(** Some schedule brings every task to its end. *)
Lemma tasks_finish (reqs : list (list Z)) (n : nat) :
  forall lp, aligned Inv f reqs lp ->
  exists sched, forall j resume, (j < n)%nat ->
      nth_error (tasks (run_loop sched lp)) j <> Some (Suspended resume).
Proof.
  induction n as [|n IH]; intros lp Hal.
  - exists []. intros j resume Hj. lia.
  - destruct (IH lp Hal) as [sched Hdone].
    pose proof (run_loop_aligned sched Hal) as Hal'.
    destruct (nth_error (tasks (run_loop sched lp)) n) as [c|] eqn:En.
    + destruct (Forall2_nth_error_r _ (proj2 Hal') En) as (ids & _ & Hy).
      destruct (task_finishes n Hy Hal' En) as [k Hk].
      exists (sched ++ repeat n k). intros j resume Hj.
      rewrite run_loop_app.
      destruct (Nat.eq_dec j n) as [->|Hne]; [apply Hk|].
      assert (Hlt : (j < n)%nat) by lia.
      destruct (nth_error (tasks (run_loop sched lp)) j) as [cj|] eqn:Ej.
      * rewrite (@run_loop_done _ _ (repeat n k) _ j cj Ej).
        -- intros [= ->]. exact (Hdone _ _ Hlt Ej).
        -- intros resume' ->. exact (Hdone _ _ Hlt Ej).
      * assert (Hnone : nth_error
                  (tasks (run_loop (repeat n k) (run_loop sched lp))) j = None).
        { apply nth_error_None. rewrite run_loop_length.
          now apply nth_error_None. }
        congruence.
    + exists sched. intros j resume Hj.
      destruct (Nat.eq_dec j n) as [->|Hne]; [congruence|].
      apply Hdone. lia.
Qed.

End Deterministic.

(** C3. Under every schedule of the tasks, on every backend, a batch that
    returns has one row per request, and row [i] is the value the coroutine
    of request [i] returned, whichever task finished first.

    On a deterministic backend, one whose coroutine for a request always
    ends with the outcome [f] gives that request, however the loop
    interleaves the tasks, and whose blocking call has the same outcome:
    under every schedule a batch that returns has one row per request, row
    [i] being the outcome of request [i], and returns what the blocking
    batch returns; when the blocking batch returns, the non-blocking batch
    cannot end otherwise; and some schedule brings the batch to its end.
    When the requests, at least one, all have values of one size as their
    outcomes, the batch returns them: every schedule that ends the batch
    gives exactly these rows in request order, every schedule can be
    continued to one that ends it so, and the blocking batch returns the
    same rows. *)
Theorem batch_async_by_source_index :
  forall (T : Torch) (St : Type) (LM : AsyncLM St)
         (reqs : list (list Z)) (self : St),
    (forall sched rows,
        fst (batch_next_token_logprobs sched reqs self) = Some (Ok rows) ->
        List.length rows = List.length reqs
        /\ forall i, (i < List.length reqs)%nat ->
             resumes_to (batch_states sched reqs self)
               (next_token_logprobs (nth i reqs []))
               (Return (nth i rows [])))
    /\ (forall (Inv : St -> Prop) (f : list Z -> result Tensor),
          (forall token_ids,
              always_yields Inv (f token_ids)
                (next_token_logprobs token_ids)) ->
          (forall token_ids s, Inv s ->
              fst (next_token_logprobs_sync token_ids s) = f token_ids
              /\ Inv (snd (next_token_logprobs_sync token_ids s))) ->
          Inv self ->
          (forall sched rows,
              fst (batch_next_token_logprobs sched reqs self)
              = Some (Ok rows) ->
              List.length rows = List.length reqs
              /\ (forall i, (i < List.length reqs)%nat ->
                    f (nth i reqs []) = Ok (nth i rows []))
              /\ fst (batch_next_token_logprobs_sync reqs self) = Ok rows)
          /\ (forall sched out rows,
                 fst (batch_next_token_logprobs sched reqs self) = Some out ->
                 fst (batch_next_token_logprobs_sync reqs self) = Ok rows ->
                 out = Ok rows)
          /\ (exists sched out,
                 fst (batch_next_token_logprobs sched reqs self) = Some out)
          /\ (forall vals,
                 reqs <> [] ->
                 Forall2 (fun ids v => f ids = Ok v) reqs vals ->
                 (forall i, (i < List.length reqs)%nat ->
                    List.length (nth i vals [])
                    = List.length (nth 0 vals [])) ->
                 (forall sched out,
                     fst (batch_next_token_logprobs sched reqs self)
                     = Some out ->
                     out = Ok vals)
                 /\ (forall pre, exists post,
                        fst (batch_next_token_logprobs (pre ++ post) reqs
                               self)
                        = Some (Ok vals))
                 /\ fst (batch_next_token_logprobs_sync reqs self)
                    = Ok vals)).
Proof.
  intros T St LM reqs self. split; [intros sched rows; apply batch_rows_resume|].
  intros Inv f Ha Hs Hinv.
  pose proof (gather_aligned f Ha reqs self Hinv) as Hal0.
  assert (Hsync : forall vals,
             Forall2 (fun ids v => f ids = Ok v) reqs vals ->
             fst (batch_next_token_logprobs_sync reqs self)
             = torch_stack vals).
  { intros vals Hv. apply (comprehension_outcomes Inv f Hs reqs self vals Hinv) in Hv.
    unfold batch_next_token_logprobs_sync, bind.
    destruct (comprehension next_token_logprobs_sync reqs self) as [r s1].
    cbn in Hv. subst r. reflexivity. }
  assert (Hends : forall lp, aligned Inv f reqs lp ->
             join_consistent lp ->
             List.length (tasks lp) = List.length reqs ->
             exists post out, gather_result (run_loop post lp) = Some out).
  { intros lp Hal Hc Hlen.
    destruct (tasks_finish (List.length reqs) Hal) as [sched Hdone].
    exists sched. unfold gather_result.
    pose proof (run_loop_consistent sched _ Hc) as Hcons.
    unfold join_consistent in Hcons.
    destruct (exception _) as [e|]; [eauto|].
    destruct (returned _) as [vals|] eqn:Er; [cbn; eauto|].
    exfalso. apply returned_none in Er. destruct Er as (i & c & Hi & Hc').
    destruct c as [a|e|resume].
    + exact (Hc' a eq_refl).
    + exact (Hcons _ _ Hi).
    + apply (Hdone i resume); [|exact Hi].
      assert (Hlt : (i < List.length (tasks (run_loop sched lp)))%nat)
        by (apply nth_error_Some; congruence).
      rewrite run_loop_length in Hlt. now rewrite Hlen in Hlt. }
  pose proof (gather_consistent self (fresh_tasks_none_raised reqs)) as Hc0.
  split; [|split; [|split]].
  - intros sched rows H. apply batch_async_ok in H. destruct H as [Ht Hst].
    pose proof (run_loop_aligned sched Hal0) as [_ Hal]. rewrite Ht in Hal.
    apply aligned_returned in Hal.
    destruct (outcomes_nth f Hal) as [Hl Hn]. repeat split; auto.
    now rewrite (Hsync _ Hal).
  - intros sched out rows Hout Hrows.
    destruct (batch_next_token_logprobs_sync reqs self) as [r s'] eqn:Eb.
    cbn in Hrows. subst r. apply batch_sync_ok in Eb. destruct Eb as [Ec Hst].
    assert (Hv : Forall2 (fun ids v => f ids = Ok v) reqs rows).
    { apply (comprehension_outcomes Inv f Hs reqs self rows Hinv). now rewrite Ec. }
    rewrite batch_async_outcome in Hout. unfold gather_result in Hout.
    pose proof (run_loop_aligned sched Hal0) as [_ Hal].
    pose proof (run_loop_consistent sched _ Hc0) as Hcons.
    unfold join_consistent in Hcons.
    destruct (exception _) as [e|].
    + exfalso. destruct Hcons as [i Hi].
      destruct (Forall2_nth_error_r _ Hal Hi) as (ids & Hids & Hy).
      destruct (Forall2_nth_error_l _ Hv Hids) as (v & _ & Hok).
      inversion Hy. congruence.
    + destruct (returned _) as [vals|] eqn:Er; [|discriminate].
      apply returned_spec in Er. rewrite Er in Hal.
      apply aligned_returned in Hal.
      rewrite (outcomes_functional f Hal Hv) in Hout. cbn in Hout.
      rewrite Hst in Hout. now injection Hout as <-.
  - destruct (Hends _ Hal0 Hc0) as (post & out & Hout).
    { cbn. apply length_map. }
    exists post. rewrite batch_async_outcome, Hout.
    destruct out as [vals|e]; eauto.
  - intros vals Hne Hv Hsz.
    assert (Hstack : torch_stack vals = Ok vals).
    { destruct (outcomes_nth f Hv) as [Hl _].
      apply torch_stack_ok. split; [reflexivity|]. split.
      - intros ->. destruct reqs; [congruence | discriminate].
      - rewrite Hl. exact Hsz. }
    assert (Hall : forall sched out,
               fst (batch_next_token_logprobs sched reqs self) = Some out ->
               out = Ok vals).
    { intros sched out Hout.
      destruct (batch_async_cases f Ha sched reqs self Hinv Hout)
        as [(vals' & Hv' & ->)|(ids & e & Hin & He & _)].
      - now rewrite (outcomes_functional f Hv' Hv).
      - exfalso. exact (outcomes_no_err f ids Hv Hin He). }
    split; [exact Hall|]. split; [|now rewrite (Hsync _ Hv)].
    intros pre.
    destruct (Hends (run_loop pre
                       (gather (map next_token_logprobs reqs) self)))
      as (post & out & Hout).
    + now apply run_loop_aligned.
    + now apply run_loop_consistent.
    + rewrite run_loop_length. cbn. apply length_map.
    + exists post.
      assert (Hb : fst (batch_next_token_logprobs (pre ++ post) reqs self)
                   = Some (match out with
                           | Ok logprobs => torch_stack logprobs
                           | Err e => Err e
                           end)).
      { rewrite batch_async_outcome, run_loop_app, Hout.
        destruct out; reflexivity. }
      rewrite Hb. f_equal. exact (Hall _ _ Hb).
Qed.

(** ** The generator draws doubles in [[0, 1)] *)

Module RandomStateFacts.
Import RandomState.

Lemma is_u32_mask (w : Z) : is_u32 w <-> Z.land w (Z.ones 32) = w.
Proof.
  unfold is_u32. rewrite Z.land_ones by lia. split.
  - intros H. now apply Z.mod_small.
  - intros <-. apply Z.mod_pos_bound. lia.
Qed.

Lemma is_u32_u32 (z : Z) : is_u32 (u32 z).
Proof.
  unfold is_u32, u32. change 0xffffffff with (Z.ones 32).
  rewrite Z.land_ones by lia. apply Z.mod_pos_bound. lia.
Qed.

Lemma land_lxor_distr (a b c : Z) :
  Z.land (Z.lxor a b) c = Z.lxor (Z.land a c) (Z.land b c).
Proof.
  apply Z.bits_inj'. intros n Hn.
  rewrite Z.lxor_spec, !Z.land_spec, Z.lxor_spec.
  destruct (Z.testbit a n), (Z.testbit b n), (Z.testbit c n); reflexivity.
Qed.

Lemma is_u32_lxor (a b : Z) : is_u32 a -> is_u32 b -> is_u32 (Z.lxor a b).
Proof.
  rewrite !is_u32_mask. intros Ha Hb.
  now rewrite land_lxor_distr, Ha, Hb.
Qed.

Lemma is_u32_lor (a b : Z) : is_u32 a -> is_u32 b -> is_u32 (Z.lor a b).
Proof.
  rewrite !is_u32_mask. intros Ha Hb.
  now rewrite Z.land_lor_distr_l, Ha, Hb.
Qed.

Lemma is_u32_land_l (a c : Z) : is_u32 a -> is_u32 (Z.land a c).
Proof.
  rewrite !is_u32_mask. intros Ha.
  now rewrite <- Z.land_assoc, (Z.land_comm c), Z.land_assoc, Ha.
Qed.

Lemma is_u32_shiftr (a k : Z) : 0 <= k -> is_u32 a -> is_u32 (Z.shiftr a k).
Proof.
  unfold is_u32. intros Hk [H0 H1]. rewrite Z.shiftr_div_pow2 by exact Hk.
  assert (0 < 2 ^ k) by (apply Z.pow_pos_nonneg; lia).
  split.
  - apply Z.div_pos; lia.
  - apply Z.le_lt_trans with a; [|exact H1].
    apply Z.div_le_upper_bound; nia.
Qed.

Lemma is_u32_nth (key : list Z) (i : nat) :
  Forall is_u32 key -> is_u32 (nth i key 0).
Proof.
  intros H. destruct (Nat.lt_ge_cases i (List.length key)) as [Hi|Hi].
  - rewrite Forall_forall in H. apply H, nth_In, Hi.
  - rewrite nth_overflow by exact Hi. unfold is_u32. lia.
Qed.

Lemma seed_key_u32 (n : nat) (pos seed : Z) :
  is_u32 seed -> Forall is_u32 (seed_key n pos seed).
Proof.
  revert pos seed. induction n as [|n IH]; intros pos seed H; simpl.
  - constructor.
  - constructor; [exact H|]. apply IH, is_u32_u32.
Qed.

Lemma mt19937_seed_well_formed (seed : Z) : well_formed (mt19937_seed seed).
Proof. apply seed_key_u32, is_u32_u32. Qed.

Lemma twist_at_u32 (i : nat) (key : list Z) :
  Forall is_u32 key -> Forall is_u32 (twist_at i key).
Proof.
  intros H. unfold twist_at. apply Forall_list_set; [|exact H].
  repeat apply is_u32_lxor.
  - now apply is_u32_nth.
  - apply is_u32_shiftr; [lia|]. apply is_u32_lor.
    + apply is_u32_land_l. now apply is_u32_nth.
    + apply is_u32_land_l. now apply is_u32_nth.
  - destruct (Z.testbit _ 0); unfold is_u32, MATRIX_A; lia.
Qed.

Lemma mt19937_gen_well_formed (st : t) :
  well_formed st -> well_formed (mt19937_gen st).
Proof.
  unfold well_formed, mt19937_gen. cbn [key].
  generalize (seq 0 RK_STATE_LEN), (key st).
  intros l. induction l as [|i l IH]; intros k H; simpl.
  - exact H.
  - apply IH, twist_at_u32, H.
Qed.

Lemma temper_u32 (y : Z) : is_u32 y -> is_u32 (temper y).
Proof.
  intros H. unfold temper. cbv zeta.
  repeat first [ apply is_u32_lxor | apply is_u32_shiftr; [lia|]
               | apply is_u32_land_l; apply is_u32_u32 | exact H ].
Qed.

Lemma mt19937_next_spec (st : t) :
  well_formed st ->
  is_u32 (fst (mt19937_next st)) /\ well_formed (snd (mt19937_next st)).
Proof.
  intros H. unfold mt19937_next.
  assert (H' : well_formed
                 (if Nat.eqb (pos st) RK_STATE_LEN then mt19937_gen st else st))
    by (destruct (Nat.eqb _ _); [now apply mt19937_gen_well_formed | exact H]).
  cbv zeta. cbn [fst snd]. split; [|exact H'].
  apply temper_u32, is_u32_nth, H'.
Qed.

(** A drawn double is [k / 2^53] with [0 <= k < 2^53]. *)
Lemma mt19937_next_double_spec (st : t) :
  well_formed st ->
  0 <= fst (mt19937_next_double st) < 2 ^ 53
  /\ well_formed (snd (mt19937_next_double st)).
Proof.
  intros H. unfold mt19937_next_double.
  destruct (mt19937_next_spec H) as [Hx H1].
  destruct (mt19937_next st) as [x st1]. cbn [fst snd] in *.
  destruct (mt19937_next_spec H1) as [Hy H2].
  destruct (mt19937_next st1) as [y st2]. cbn [fst snd] in *.
  split; [|exact H2].
  unfold is_u32 in *. rewrite !Z.shiftr_div_pow2 by lia.
  assert (0 <= x / 2 ^ 5 < 2 ^ 27)
    by (split; [apply Z.div_pos; lia | apply Z.div_lt_upper_bound; lia]).
  assert (0 <= y / 2 ^ 6 < 2 ^ 26)
    by (split; [apply Z.div_pos; lia | apply Z.div_lt_upper_bound; lia]).
  lia.
Qed.

Lemma double_fill_spec (n : nat) (st : t) :
  well_formed st ->
  List.length (fst (double_fill n st)) = n
  /\ Forall (fun k => 0 <= k < 2 ^ 53) (fst (double_fill n st))
  /\ well_formed (snd (double_fill n st)).
Proof.
  revert st. induction n as [|n IH]; intros st H; cbn [double_fill].
  - repeat split; [constructor | exact H].
  - destruct (mt19937_next_double_spec H) as [Hd H1].
    destruct (mt19937_next_double st) as [d st1]. cbn [fst snd] in *.
    destruct (IH st1 H1) as (Hl & Hf & H2).
    destruct (double_fill n st1) as [ds st2]. cbn [fst snd] in *.
    repeat split; [simpl; now rewrite Hl | now constructor | exact H2].
Qed.

End RandomStateFacts.

(** ** The mock backend *)

Lemma run_async_def (St A : Type) (body : method St A) (s : St) (fuel : nat) :
  run_until_complete (S fuel) (async_def body) s = Some (body s).
Proof.
  unfold async_def. cbn [run_until_complete].
  destruct (body s) as [[a|e] s']; destruct fuel; reflexivity.
Qed.

Lemma async_def_one_shot (St A : Type) (body : method St A) :
  one_shot (async_def body).
Proof.
  intros resume s resume' [= <-]. destruct (body s) as [[a|e] s']; discriminate.
Qed.

Section MockBackend.
Context {T : Torch}.

Lemma state_after_tokenizer_len (history : list (list Z)) (self : MockAsyncLM) :
  tokenizer_len (state_after history self) = tokenizer_len self.
Proof.
  revert self. induction history as [|ids history IH]; intros self.
  - reflexivity.
  - unfold state_after, after_calls in *. cbn [fold_left]. rewrite IH.
    apply _get_logprobs_tokenizer_len.
Qed.

(** The mock backend is a deterministic backend: over a tokenizer of length
    [n], the outcome of a request is the one a new instance gives. *)
Lemma mock_sync_yields (n : nat) (token_ids : list Z) (self : MockAsyncLM) :
  tokenizer_len self = n ->
  fst (next_token_logprobs_sync token_ids self)
  = fst (_get_logprobs token_ids (MockAsyncLM_init n))
  /\ tokenizer_len (snd (next_token_logprobs_sync token_ids self)) = n.
Proof.
  intros H. cbn [next_token_logprobs_sync MockAsyncLM_AsyncLM]. split.
  - now apply _get_logprobs_result_by_seed.
  - now rewrite _get_logprobs_tokenizer_len.
Qed.

Lemma mock_async_yields (n : nat) (token_ids : list Z) :
  always_yields (fun self => tokenizer_len self = n)
    (fst (_get_logprobs token_ids (MockAsyncLM_init n)))
    (next_token_logprobs token_ids).
Proof.
  cbn [next_token_logprobs MockAsyncLM_AsyncLM].
  apply async_def_yields. intros s Hs. now apply mock_sync_yields.
Qed.

(** On the mock backend every row of a blocking batch is what the single
    call gives on the instance the batch was called on. *)
Lemma mock_batch_sync_rows (reqs : list (list Z)) (self : MockAsyncLM)
    (rows : list Tensor) :
  fst (batch_next_token_logprobs_sync reqs self) = Ok rows ->
  List.length rows = List.length reqs
  /\ forall i, (i < List.length reqs)%nat ->
       fst (next_token_logprobs_sync (nth i reqs []) self)
       = Ok (nth i rows []).
Proof.
  intros H.
  destruct (batch_next_token_logprobs_sync reqs self) as [r s'] eqn:Eb.
  cbn in H. subst r. apply batch_sync_ok in Eb. destruct Eb as [Ec _].
  set (n := tokenizer_len self).
  assert (Hv : Forall2
                 (fun ids v =>
                    fst (_get_logprobs ids (MockAsyncLM_init n)) = Ok v)
                 reqs rows).
  { apply (comprehension_outcomes (fun m => tokenizer_len m = n)
             (fun ids => fst (_get_logprobs ids (MockAsyncLM_init n)))
             (mock_sync_yields (n := n)) reqs self rows eq_refl).
    now rewrite Ec. }
  destruct (outcomes_nth _ Hv) as [Hl Hn]. split; [exact Hl|].
  intros i Hi. rewrite <- (Hn i Hi).
  now apply mock_sync_yields.
Qed.

(** The only exception a call of the mock backend raises is numpy's. *)
Lemma _get_logprobs_err (token_ids : list Z) (self : MockAsyncLM) (e : exn) :
  fst (_get_logprobs token_ids self) = Err e -> e = RandomState.seed_error.
Proof.
  rewrite _get_logprobs_closed_form. cbv zeta.
  destruct (_ || _); [now intros [= <-] | discriminate].
Qed.

(** X2. On the mock backend the non-blocking batch, under every schedule
    that resumes each of its tasks, ends with exactly the outcome of the
    blocking batch: the same rows or the same exception. *)
Theorem mock_batch_async_equals_sync :
  forall (reqs : list (list Z)) (self : MockAsyncLM) (sched : list nat),
    (forall i, (i < List.length reqs)%nat -> In i sched) ->
    fst (batch_next_token_logprobs sched reqs self)
    = Some (fst (batch_next_token_logprobs_sync reqs self)).
Proof.
  intros reqs self sched Hcover.
  set (n := tokenizer_len self).
  set (Inv := fun m : MockAsyncLM => tokenizer_len m = n).
  set (f := fun ids => fst (_get_logprobs ids (MockAsyncLM_init n))).
  assert (Hs : Inv self) by reflexivity.
  assert (Hsync : forall ids s, Inv s ->
             fst (next_token_logprobs_sync ids s) = f ids
             /\ Inv (snd (next_token_logprobs_sync ids s)))
    by (intros ids s H; now apply mock_sync_yields).
  (* the join has its result *)
  assert (Hend : exists out,
             fst (batch_next_token_logprobs sched reqs self) = Some out).
  { set (lp := run_loop sched (gather (map next_token_logprobs reqs) self)).
    destruct (@gather_result_done _ _ lp) as [out Hout].
    - apply run_loop_consistent, gather_consistent, fresh_tasks_none_raised.
    - intros i. destruct (Nat.lt_ge_cases i (List.length reqs)) as [Hi|Hi].
      + apply run_loop_one_shot; [|now apply Hcover].
        cbn [tasks gather]. apply Forall_forall. intros c Hc.
        apply in_map_iff in Hc. destruct Hc as (ids & <- & _).
        apply async_def_one_shot.
      + intros resume Hr.
        assert (Hlt : (i < List.length (tasks lp))%nat)
          by (apply nth_error_Some; congruence).
        unfold lp in Hlt. rewrite run_loop_length in Hlt. cbn in Hlt.
        rewrite length_map in Hlt. lia.
    - rewrite batch_async_outcome. fold lp. rewrite Hout.
      destruct out; eauto. }
  destruct Hend as [out Hout]. rewrite Hout. f_equal.
  pose proof (batch_async_cases f (mock_async_yields n) sched reqs self Hs Hout)
    as Ha.
  pose proof (batch_sync_cases Inv f Hsync reqs self Hs) as Hb.
  destruct Ha as [(vals & Hv & ->)|(ids & e & Hin & He & ->)];
    destruct Hb as [(vals' & Hv' & ->)|(ids' & e' & Hin' & He' & ->)].
  - now rewrite (outcomes_functional f Hv Hv').
  - exfalso. exact (outcomes_no_err f ids' Hv Hin' He').
  - exfalso. exact (outcomes_no_err f ids Hv' Hin He).
  - apply _get_logprobs_err in He, He'. congruence.
Qed.

(** C6. Two calls with the same token id sequence, made after any two
    histories of calls on a mock backend, have the same outcome, by the
    blocking and by the non-blocking entry point. *)
Theorem mock_deterministic :
  forall (n : nat) (history history' : list (list Z)) (token_ids : list Z),
    let self := state_after history (MockAsyncLM_init n) in
    let self' := state_after history' (MockAsyncLM_init n) in
    fst (next_token_logprobs_sync token_ids self)
    = fst (next_token_logprobs_sync token_ids self')
    /\ option_map fst (run_until_complete 1 (next_token_logprobs token_ids) self)
       = option_map fst
           (run_until_complete 1 (next_token_logprobs token_ids) self').
Proof.
  intros n history history' token_ids self self'.
  assert (H : fst (_get_logprobs token_ids self)
              = fst (_get_logprobs token_ids self')).
  { apply _get_logprobs_result_by_seed; [reflexivity|].
    unfold self, self'. now rewrite !state_after_tokenizer_len. }
  split; [exact H|].
  cbn [next_token_logprobs MockAsyncLM_AsyncLM].
  rewrite !run_async_def. cbn [option_map]. now rewrite H.
Qed.


End MockBackend.

(** C8. The seed is not injective on sequences of non-negative token ids:
    [1, 2, 3] and [4, 5] are distinct, have the same seed 14, and so get
    the same distribution from every mock backend. *)
Theorem seed_not_injective :
  exists a b : list Z,
    a <> b
    /\ Forall (fun t => 0 <= t) a /\ Forall (fun t => 0 <= t) b
    /\ get_logprobs_seed a = get_logprobs_seed b
    /\ forall (T : Torch) (self : MockAsyncLM),
         fst (_get_logprobs a self) = fst (_get_logprobs b self)
         /\ exists d, fst (_get_logprobs a self) = Ok d.
Proof.
  exists [1; 2; 3], [4; 5]. split; [discriminate|].
  split; [repeat constructor; lia|]. split; [repeat constructor; lia|].
  split; [reflexivity|]. intros T self. split.
  - now apply _get_logprobs_result_by_seed.
  - rewrite _get_logprobs_closed_form. cbn. eauto.
Qed.


(** ** Normalisation *)

Section SumExp.
Local Open Scope R_scope.

Lemma Rabs_le_both (a b : R) : Rabs a <= b -> - b <= a <= b.
Proof. unfold Rabs. destruct (Rcase_abs a); lra. Qed.

Lemma exp_mono (x y : R) : x <= y -> exp x <= exp y.
Proof.
  intros [H| ->]; [left; now apply exp_increasing | right; reflexivity].
Qed.







End SumExp.

Lemma Forall2_map_both (A B : Type) (g : A -> B) (P : B -> B -> Prop)
    (ys xs : list A) :
  Forall2 (fun y x => P (g y) (g x)) ys xs ->
  Forall2 P (map g ys) (map g xs).
Proof. induction 1; simpl; constructor; auto. Qed.


(** The term model read in exact arithmetic meets the contract of the kernel
    with no error at all. *)
Lemma exact_value_accurate (n : nat) :
  log_softmax_accurate_at (T := Symbolic) n exact_value 0.
Proof.
  intros draws _ _. cbv zeta.
  generalize (map (@astype_float32 Symbolic) draws). clear draws.
  intros logits. cbn [log_softmax Symbolic].
  assert (H : forall pre post : list sym32,
             logits = pre ++ post ->
             Forall2
               (fun y x =>
                  (Rabs (exact_value y
                         - (exact_value x
                            - ln (sum_exp (map exact_value logits)))) <= 0)%R)
               (map (LogSoftmaxAt logits)
                    (seq (List.length pre) (List.length post)))
               post).
  { intros pre post. revert pre.
    induction post as [|x post IH]; intros pre E; cbn [List.length seq map].
    - constructor.
    - constructor.
      + cbn [exact_value]. rewrite E at 1.
        rewrite map_app, app_nth2 by (rewrite length_map; lia).
        rewrite length_map, Nat.sub_diag. cbn [map nth].
        rewrite Rminus_diag, Rabs_R0. apply Rle_refl.
      + specialize (IH (pre ++ [x])).
        rewrite length_app, Nat.add_1_r in IH. apply IH.
        now rewrite <- app_assoc. }
  exact (H [] logits eq_refl).
Qed.

(** ** The scenarios of the specification, on the term model *)

Section Scenarios.
#[local] Existing Instance Symbolic.

(** A batch of [[1, 2, 3]] and [[7]] over a tokenizer of two tokens: the
    loop runs the second task first, and the rows still come in request
    order, as the blocking batch gives them. *)
Example batch_scenario :
  let self := MockAsyncLM_init 2 in
  let reqs := [[1; 2; 3]; [7]] in
  let row token_ids := fst (next_token_logprobs_sync token_ids self) in
  fst (batch_next_token_logprobs [1; 0]%nat reqs self)
  = Some (fst (batch_next_token_logprobs_sync reqs self))
  /\ (exists d d',
         row [1; 2; 3] = Ok d /\ row [7] = Ok d' /\ d <> d'
         /\ fst (batch_next_token_logprobs [1; 0]%nat reqs self)
            = Some (Ok [d; d'])).
Proof.
  cbv zeta. split; [vm_compute; reflexivity|].
  eexists. eexists. split; [vm_compute; reflexivity|].
  split; [vm_compute; reflexivity|]. split; [discriminate|].
  vm_compute. reflexivity.
Qed.

(** While a task of the batch has not been run, the join is waiting. *)
Example batch_waits_for_all :
  fst (batch_next_token_logprobs (T := Symbolic) [1]%nat
         [[1; 2; 3]; [4; 5]] (MockAsyncLM_init 2))
  = None.
Proof. vm_compute. reflexivity. Qed.

(** A member whose seed numpy refuses fails the whole batch with numpy's
    exception, in either entry point and whichever task runs first. *)
Example batch_member_fails :
  let self := MockAsyncLM_init 2 in
  fst (batch_next_token_logprobs (T := Symbolic) [0; 1]%nat
         [[1; 2; 3]; [-1]] self)
  = Some (Err RandomState.seed_error)
  /\ fst (batch_next_token_logprobs (T := Symbolic) [1]%nat
            [[1; 2; 3]; [-1]] self)
     = Some (Err RandomState.seed_error)
  /\ fst (batch_next_token_logprobs_sync (T := Symbolic)
            [[1; 2; 3]; [-1]] self)
     = Err RandomState.seed_error.
Proof. vm_compute. repeat split; reflexivity. Qed.

(** [torch.stack] names the sizes and the position of the first tensor
    whose size differs from the size of the first. *)
Example unequal_stack_message :
  torch_stack [[Cast 1; Cast 2]; [Cast 3; Cast 4]; [Cast 5]]
  = Err (RuntimeError
           "stack expects each tensor to be equal size, but got [2] at entry 0 and [1] at entry 2").
Proof. reflexivity. Qed.

(** X1. The seed grows with the square of the length: 413 copies of the
    last token id of a vocabulary of 50257 have a seed above [2^32 - 1],
    which numpy refuses, so the call raises instead of returning. *)
Example long_prompt_seed_refused :
  get_logprobs_seed (repeat 50256 413) = 4296435696
  /\ forall (T : Torch) (self : MockAsyncLM),
       _get_logprobs (repeat 50256 413) self
       = (Err RandomState.seed_error, self).
Proof.
  assert (H : get_logprobs_seed (repeat 50256 413) = 4296435696)
    by (vm_compute; reflexivity).
  split; [exact H|]. intros T self.
  rewrite _get_logprobs_closed_form, H. reflexivity.
Qed.

(** ** The theorems at concrete inputs *)

(** The blocking batch of the specification's scenario: both requests have
    seed 14, so the two rows are the same tensor. *)
Lemma batch_sync_is_stack_of_items_witness :
  let reqs := [[1; 2; 3]; [4; 5]] in
  let self := MockAsyncLM_init 2 in
  let row := @log_softmax Symbolic
               [Cast 4629190103008469; Cast 6964051680880422] in
  let rows := [row; row] in
  reqs <> []
  /\ batch_next_token_logprobs_sync reqs self
     = (Ok rows, state_after reqs self).
Proof.
  cbv zeta. split; [discriminate|].
  apply batch_sync_is_stack_of_items; [discriminate|].
  repeat split.
  - intros [|[|i]] Hi; [vm_compute; reflexivity | vm_compute; reflexivity |].
    simpl in Hi. lia.
  - intros [|[|i]] Hi; [reflexivity | reflexivity |]. simpl in Hi. lia.
Defined.

(** The mock backend over two tokens is a deterministic backend: the batch
    of [[1, 2, 3]] and [[7]] returns the distributions of the two requests
    in request order, under every schedule that ends it. *)
Lemma batch_async_by_source_index_witness :
  let reqs := [[1; 2; 3]; [7]] in
  let self := MockAsyncLM_init 2 in
  let vals := [seeded_distribution 2 [1; 2; 3]; seeded_distribution 2 [7]] in
  (forall sched out,
      fst (batch_next_token_logprobs sched reqs self) = Some out ->
      out = Ok vals)
  /\ (forall pre, exists post,
         fst (batch_next_token_logprobs (pre ++ post) reqs self)
         = Some (Ok vals))
  /\ fst (batch_next_token_logprobs_sync reqs self) = Ok vals.
Proof.
  cbv zeta.
  destruct (@batch_async_by_source_index Symbolic MockAsyncLM _
              [[1; 2; 3]; [7]] (MockAsyncLM_init 2)) as [_ Hdet].
  destruct (Hdet (fun m => tokenizer_len m = 2%nat)
              (fun token_ids =>
                 fst (_get_logprobs token_ids (MockAsyncLM_init 2)))
              (mock_async_yields 2)
              (fun token_ids s H => mock_sync_yields token_ids s H)
              eq_refl) as (_ & _ & _ & Hvals).
  apply Hvals.
  - discriminate.
  - repeat constructor.
  - intros [|[|i]] Hi; [reflexivity | reflexivity |]. simpl in Hi. lia.
Defined.

(** A member whose seed numpy refuses raises when the loop resumes it, and
    the batch fails with its exception: as the second task to run, as the
    first, and in the blocking batch. *)
Lemma batch_fails_with_first_error_witness :
  let self := MockAsyncLM_init 2 in
  let reqs := [[1; 2; 3]; [-1]] in
  (forall later,
      fst (batch_next_token_logprobs ([0] ++ 1 :: later)%nat reqs self)
      = Some (Err RandomState.seed_error))
  /\ (forall later,
         fst (batch_next_token_logprobs ([] ++ 1 :: later)%nat reqs self)
         = Some (Err RandomState.seed_error))
  /\ fst (batch_next_token_logprobs_sync reqs self)
     = Err RandomState.seed_error.
Proof.
  cbv zeta.
  destruct (@batch_fails_with_first_error Symbolic MockAsyncLM _ []
              [[1; 2; 3]; [-1]] (MockAsyncLM_init 2))
    as (_ & _ & _ & Hsync & _ & Hraise & _).
  split; [|split].
  - refine (Hraise [0]%nat 1%nat _ RandomState.seed_error _ _ _ eq_refl _).
    + simpl. lia.
    + intros [H|[]]. discriminate.
    + vm_compute. reflexivity.
    + vm_compute. reflexivity.
  - refine (Hraise [] 1%nat _ RandomState.seed_error _ _ _ eq_refl _).
    + simpl. lia.
    + intros [].
    + vm_compute. reflexivity.
    + vm_compute. reflexivity.
  - rewrite (Hsync 1%nat RandomState.seed_error).
    + reflexivity.
    + simpl. lia.
    + vm_compute. reflexivity.
    + intros [|j] Hj; [|lia]. eexists. vm_compute. reflexivity.
Defined.

(** The scenario's batch with the second task run first. *)
Lemma mock_batch_async_equals_sync_witness :
  fst (batch_next_token_logprobs [1; 0]%nat [[1; 2; 3]; [4; 5]]
         (MockAsyncLM_init 2))
  = Some (fst (batch_next_token_logprobs_sync [[1; 2; 3]; [4; 5]]
                 (MockAsyncLM_init 2))).
Proof.
  apply mock_batch_async_equals_sync.
  intros [|[|i]] Hi; simpl in *; [auto | auto | lia].
Defined.

End Scenarios.

(* ================================================================== *)
(** * Further properties *)

(** ** The seed of longer and padded prompts *)

Lemma sum_app (xs ys : list Z) : sum (xs ++ ys) = sum xs + sum ys.
Proof.
  induction xs as [|x xs IH]; [reflexivity|].
  rewrite <- app_comm_cons, !sum_cons, IH. lia.
Qed.

Lemma sum_repeat_0 (k : nat) : sum (repeat 0 k) = 0.
Proof.
  induction k as [|k IH]; [reflexivity|]. cbn [repeat]. now rewrite sum_cons, IH.
Qed.

(** The weighted sum over [enumerate] counted from [k], of a concatenation
    and against the one counted from 0. *)
Lemma weighted_app (a b : list Z) (k : Z) :
  sum (map (fun '(i, t) => (i + 1) * t) (enumerate_from k (a ++ b)))
  = sum (map (fun '(i, t) => (i + 1) * t) (enumerate_from k a))
    + sum (map (fun '(i, t) => (i + 1) * t)
               (enumerate_from (k + Z.of_nat (List.length a)) b)).
Proof.
  revert k. induction a as [|x a IH]; intros k.
  - cbn [app List.length enumerate_from map].
    replace (k + Z.of_nat 0) with k by lia. change (sum []) with 0. lia.
  - rewrite <- app_comm_cons. cbn [enumerate_from map]. rewrite !sum_cons, IH.
    replace (k + 1 + Z.of_nat (List.length a))
      with (k + Z.of_nat (List.length (x :: a)))
      by (cbn [List.length]; lia).
    lia.
Qed.

Lemma weighted_shift (b : list Z) (k : Z) :
  sum (map (fun '(i, t) => (i + 1) * t) (enumerate_from k b))
  = sum (map (fun '(i, t) => (i + 1) * t) (enumerate_from 0 b)) + k * sum b.
Proof.
  revert k. induction b as [|t b IH]; intros k.
  - unfold sum. cbn. lia.
  - cbn [enumerate_from map]. rewrite !sum_cons, (IH (k + 1)), (IH (0 + 1)).
    lia.
Qed.

Lemma seed_app (a b : list Z) :
  get_logprobs_seed (a ++ b)
  = get_logprobs_seed a + get_logprobs_seed b
    + Z.of_nat (List.length a) * sum b.
Proof.
  unfold get_logprobs_seed, enumerate.
  rewrite weighted_app, (weighted_shift b (0 + _)). lia.
Qed.

Lemma seed_repeat_0 (k : nat) : get_logprobs_seed (repeat 0 k) = 0.
Proof.
  induction k as [|k IH]; [reflexivity|].
  change (repeat 0 (S k)) with ([0] ++ repeat 0 k).
  rewrite seed_app, IH, sum_repeat_0. reflexivity.
Qed.

(** X3. Appending a token [t] to a prompt of [n] tokens adds [(n + 1) * t]
    to the seed, and a suffix adds its own seed plus [n] times the sum of
    its tokens.  So a prompt followed by any number of tokens 0 has the seed
    of the prompt, and the mock backend answers it exactly as it answers the
    prompt. *)
Theorem zero_padding_is_invisible :
  (forall (a b : list Z),
      get_logprobs_seed (a ++ b)
      = get_logprobs_seed a + get_logprobs_seed b
        + Z.of_nat (List.length a) * sum b)
  /\ (forall (token_ids : list Z) (t : Z),
         get_logprobs_seed (token_ids ++ [t])
         = get_logprobs_seed token_ids
           + (Z.of_nat (List.length token_ids) + 1) * t)
  /\ (forall (T : Torch) (token_ids : list Z) (k : nat) (self : MockAsyncLM),
         _get_logprobs (token_ids ++ repeat 0 k) self
         = _get_logprobs token_ids self).
Proof.
  split; [exact seed_app|]. split.
  - intros token_ids t. rewrite seed_app.
    assert (H1 : get_logprobs_seed [t] = t)
      by (unfold get_logprobs_seed, enumerate, sum;
          cbn [enumerate_from map fold_left]; lia).
    assert (H2 : sum [t] = t) by (unfold sum; cbn [fold_left]; lia).
    rewrite H1, H2. lia.
  - intros T token_ids k self. rewrite !_get_logprobs_closed_form.
    now rewrite seed_app, seed_repeat_0, sum_repeat_0, Z.mul_0_r, !Z.add_0_r.
Qed.

(** ** Prompts the mock backend answers *)

(** Token ids between 0 and [m]: the weighted sum counted from [k >= 0] is
    non-negative and at most [m] times the sum of the weights. *)
Lemma weighted_bounds (m : Z) (l : list Z) (k : Z) :
  0 <= k -> Forall (fun t => 0 <= t <= m) l ->
  let w := sum (map (fun '(i, t) => (i + 1) * t) (enumerate_from k l)) in
  let n := Z.of_nat (List.length l) in
  0 <= w /\ 2 * w <= m * (n * (2 * k + n + 1)).
Proof.
  intros Hk H. revert k Hk. induction H as [|t l Ht H IH]; intros k Hk.
  - cbv zeta. unfold sum. cbn. lia.
  - cbv zeta. cbn [enumerate_from map]. rewrite sum_cons.
    specialize (IH (k + 1) ltac:(lia)). cbv zeta in IH.
    set (w := sum _) in *. cbn [List.length].
    rewrite Nat2Z.inj_succ. set (n := Z.of_nat (List.length l)) in *.
    assert (0 <= n) by (unfold n; lia).
    destruct IH as [IH0 IH1]. split; [nia|].
    assert (0 <= m) by lia.
    replace (m * (Z.succ n * (2 * k + Z.succ n + 1)))
      with (m * (n * (2 * (k + 1) + n + 1)) + 2 * ((k + 1) * m))
      by (unfold Z.succ; ring).
    assert ((k + 1) * t <= (k + 1) * m) by nia.
    lia.
Qed.

(** X4. A prompt of [n] token ids of a vocabulary of [V] tokens is always
    answered when [(V - 1) * n * (n + 1)] is at most [2 * (2^32 - 1)]: its
    seed then passes the range check of numpy, the call returns the
    distribution drawn from a generator newly seeded with it, and leaves
    that generator on the instance. *)
Theorem short_prompts_are_answered :
  forall (T : Torch) (V : Z) (token_ids : list Z) (self : MockAsyncLM),
    Forall (fun t => 0 <= t < V) token_ids ->
    (V - 1) * (Z.of_nat (List.length token_ids)
               * (Z.of_nat (List.length token_ids) + 1))
    <= 2 * (2 ^ 32 - 1) ->
    0 <= get_logprobs_seed token_ids <= 2 ^ 32 - 1
    /\ seed_accepted token_ids = true
    /\ _get_logprobs token_ids self
       = (Ok (seeded_distribution (tokenizer_len self) token_ids),
          {| tokenizer_len := tokenizer_len self;
             _rng := snd (RandomState.double_fill (tokenizer_len self)
                            (RandomState.new (get_logprobs_seed token_ids)))
          |}).
Proof.
  intros T V token_ids self Hids Hn.
  assert (Hb : Forall (fun t => 0 <= t <= V - 1) token_ids)
    by (eapply Forall_impl; [|exact Hids]; cbv beta; intros; lia).
  destruct (@weighted_bounds (V - 1) token_ids 0 (Z.le_refl 0) Hb) as [H0 H1].
  fold (enumerate token_ids) in H0, H1.
  fold (get_logprobs_seed token_ids) in H0, H1.
  assert (Hs : 0 <= get_logprobs_seed token_ids <= 2 ^ 32 - 1).
  { split; [exact H0|].
    replace (2 * 0 + Z.of_nat (List.length token_ids) + 1)
      with (Z.of_nat (List.length token_ids) + 1) in H1 by lia.
    lia. }
  assert (Ha : (get_logprobs_seed token_ids <? 0)
               || (2 ^ 32 - 1 <? get_logprobs_seed token_ids) = false).
  { apply orb_false_iff. split; apply Z.ltb_ge; lia. }
  split; [exact Hs|]. split; [unfold seed_accepted; now rewrite Ha|].
  rewrite _get_logprobs_closed_form. cbv zeta. now rewrite Ha.
Qed.

(** ** The non-blocking batch is a join *)

Section JoinFacts.
Context {T : Torch} {St : Type} {LM : AsyncLM St}.

(** A task the schedule never picks is left as it was. *)
Lemma run_loop_untouched (sched : list nat) (lp : loop St Tensor) (i : nat) :
  ~ In i sched ->
  nth_error (tasks (run_loop sched lp)) i = nth_error (tasks lp) i.
Proof.
  revert lp. induction sched as [|j sched IH]; intros lp Hi.
  - reflexivity.
  - rewrite run_loop_cons, IH by (intros H; apply Hi; now right).
    apply resume_task_other. left. intros ->. apply Hi. now left.
Qed.

(** Once no task is suspended, the loop changes nothing. *)
Lemma run_loop_all_done (sched : list nat) (lp : loop St Tensor) :
  (forall i, not_suspended lp i) -> run_loop sched lp = lp.
Proof.
  intros Hdone. induction sched as [|j sched IH]; [reflexivity|].
  rewrite run_loop_cons.
  destruct (resume_task_cases lp j) as [[-> _]|(k & Hk & _)]; [exact IH|].
  exfalso. exact (Hdone j k Hk).
Qed.

(** X5. The non-blocking batch is a join, not a race: it returns rows only
    when the loop has resumed every one of its tasks. *)
Theorem batch_returns_after_every_task :
  forall (sched : list nat) (reqs : list (list Z)) (self : St)
         (rows : list Tensor),
    fst (batch_next_token_logprobs sched reqs self) = Some (Ok rows) ->
    forall i, (i < List.length reqs)%nat -> In i sched.
Proof.
  intros sched reqs self rows H i Hi.
  destruct (in_dec Nat.eq_dec i sched) as [Hin|Hout]; [exact Hin | exfalso].
  apply batch_async_ok in H. destruct H as [Ht _].
  pose proof (@run_loop_untouched sched
                (gather (map next_token_logprobs reqs) self) i Hout) as Hu.
  rewrite Ht in Hu. cbn [tasks gather] in Hu. rewrite !nth_error_map in Hu.
  destruct (nth_error reqs i) as [ids|] eqn:Ei;
    [|apply nth_error_None in Ei; lia].
  destruct (next_token_logprobs_async_def ids) as [k Hk].
  cbn [option_map] in Hu. rewrite Hk in Hu.
  destruct (nth_error rows i); discriminate.
Qed.

(** X6. The outcome of the non-blocking batch is final: once the join has
    rows or an exception, whatever the loop runs afterwards leaves the
    outcome as it is. *)
Theorem batch_outcome_is_final :
  forall (pre post : list nat) (reqs : list (list Z)) (self : St)
         (out : result (list Tensor)),
    fst (batch_next_token_logprobs pre reqs self) = Some out ->
    fst (batch_next_token_logprobs (pre ++ post) reqs self) = Some out.
Proof.
  intros pre post reqs self out. rewrite !batch_async_outcome, run_loop_app.
  set (lp := run_loop pre (gather (map next_token_logprobs reqs) self)).
  unfold gather_result. destruct (exception lp) as [e|] eqn:Ee.
  - now rewrite (run_loop_exception post lp Ee).
  - destruct (returned (tasks lp)) as [vals|] eqn:Er; [|discriminate].
    assert (Hdone : forall i, not_suspended lp i).
    { intros i resume Hi. apply returned_spec in Er. rewrite Er in Hi.
      apply nth_error_In, in_map_iff in Hi. destruct Hi as (d & Hd & _).
      discriminate. }
    now rewrite (run_loop_all_done post Hdone), Ee, Er.
Qed.

End JoinFacts.

(** ** Batches in chunks *)

Section ChunkFacts.
Context {T : Torch} {St : Type} {LM : AsyncLM St}.

Lemma comprehension_app (A B : Type) (f : A -> method St B) (a b : list A)
    (s : St) :
  comprehension f (a ++ b) s
  = match comprehension f a s with
    | (Ok ya, s1) =>
        match comprehension f b s1 with
        | (Ok yb, s2) => (Ok (ya ++ yb), s2)
        | (Err e, s2) => (Err e, s2)
        end
    | (Err e, s1) => (Err e, s1)
    end.
Proof.
  revert s. induction a as [|x a IH]; intros s.
  - cbn. now destruct (comprehension f b s) as [[yb|e] s2].
  - rewrite <- app_comm_cons. cbn [comprehension]. unfold bind, ret.
    destruct (f x s) as [[y|e] s0]; [|reflexivity].
    rewrite IH.
    destruct (comprehension f a s0) as [[ya|e] s1]; [|reflexivity].
    now destruct (comprehension f b s1) as [[yb|e] s2].
Qed.

Lemma comprehension_length (A B : Type) (f : A -> method St B) (xs : list A)
    (s s' : St) (ys : list B) :
  comprehension f xs s = (Ok ys, s') -> List.length ys = List.length xs.
Proof.
  revert s s' ys. induction xs as [|x xs IH]; intros s s' ys.
  - cbn. now intros [= <- _].
  - cbn [comprehension]. unfold bind, ret.
    destruct (f x s) as [[y|e] s0]; [|discriminate].
    destruct (comprehension f xs s0) as [[ys'|e] s1] eqn:E; [|discriminate].
    intros [= <- _]. cbn. f_equal. exact (IH _ _ _ E).
Qed.

(** [torch.stack] returns exactly on a non-empty list whose tensors all
    have one size. *)
Lemma torch_stack_one_size (rows : list Tensor) :
  torch_stack rows = Ok rows
  <-> rows <> []
      /\ forall t u, In t rows -> In u rows -> List.length t = List.length u.
Proof.
  destruct rows as [|t0 rest].
  - split; [discriminate | intros [H _]; congruence].
  - pose proof (torch_stack_cons t0 rest) as Hs.
    destruct (forallb (same_size t0) rest) eqn:E;
      [rewrite Hs | destruct Hs as [e0 ->]].
    + rewrite forallb_forall in E. split; [|reflexivity].
      intros _. split; [discriminate|].
      assert (H0 : forall u, In u (t0 :: rest) ->
                    List.length u = List.length t0).
      { intros u [<-|Hu]; [reflexivity|]. now apply Nat.eqb_eq, E. }
      intros t u Ht Hu. now rewrite (H0 t Ht), (H0 u Hu).
    + split; [discriminate|]. intros [_ H]. exfalso.
      assert (E' : forallb (same_size t0) rest = true); [|congruence].
      apply forallb_forall. intros u Hu. apply Nat.eqb_eq.
      apply H; [now right | now left].
Qed.

(** X7. A blocking batch can be made in chunks: over two non-empty lists of
    requests, the batch of their concatenation returns exactly when the
    batch of the first returns, the batch of the second, made on the
    attributes the first has left, returns, and the rows of both have one
    size; its rows are then the rows of the first followed by those of the
    second. *)
Theorem batch_sync_in_chunks :
  forall (a b : list (list Z)) (self self' : St) (rows : list Tensor),
    a <> [] -> b <> [] ->
    (batch_next_token_logprobs_sync (a ++ b) self = (Ok rows, self')
     <-> exists ra rb s1,
           batch_next_token_logprobs_sync a self = (Ok ra, s1)
           /\ batch_next_token_logprobs_sync b s1 = (Ok rb, self')
           /\ rows = ra ++ rb
           /\ forall t u, In t ra -> In u rb ->
                List.length t = List.length u).
Proof.
  intros a b self self' rows Ha Hb. rewrite batch_sync_ok, comprehension_app.
  split.
  - intros [Hc Hst].
    destruct (comprehension next_token_logprobs_sync a self)
      as [[ra|e] s1] eqn:Ea; [|discriminate].
    destruct (comprehension next_token_logprobs_sync b s1)
      as [[rb|e] s2] eqn:Eb; [|discriminate].
    injection Hc as <- <-.
    apply torch_stack_one_size in Hst. destruct Hst as [_ Hsz].
    pose proof (comprehension_length _ _ _ Ea) as La.
    pose proof (comprehension_length _ _ _ Eb) as Lb.
    exists ra, rb, s1. repeat split.
    + apply batch_sync_ok. split; [exact Ea|].
      apply torch_stack_one_size. split.
      * intros ->. destruct a; [congruence | discriminate].
      * intros t u Ht Hu. apply Hsz; apply in_or_app; now left.
    + apply batch_sync_ok. split; [exact Eb|].
      apply torch_stack_one_size. split.
      * intros ->. destruct b; [congruence | discriminate].
      * intros t u Ht Hu. apply Hsz; apply in_or_app; now right.
    + intros t u Ht Hu. apply Hsz; apply in_or_app; [now left | now right].
  - intros (ra & rb & s1 & Ea & Eb & -> & Hcross).
    apply batch_sync_ok in Ea, Eb. destruct Ea as [Ea Hsa], Eb as [Eb Hsb].
    rewrite Ea, Eb. split; [reflexivity|].
    apply torch_stack_one_size in Hsa, Hsb.
    destruct Hsa as [Hna Hsa], Hsb as [Hnb Hsb].
    apply torch_stack_one_size. split.
    + intros E. apply app_eq_nil in E. destruct E. congruence.
    + intros t u Ht Hu. apply in_app_or in Ht, Hu.
      destruct ra as [|t0 ra]; [congruence|].
      destruct rb as [|u0 rb]; [congruence|].
      assert (H0 : List.length t0 = List.length u0)
        by (apply Hcross; now left).
      assert (Ht0 : List.length t = List.length t0).
      { destruct Ht as [Ht|Ht]; [apply Hsa; [exact Ht | now left]|].
        rewrite H0. apply Hsb; [exact Ht | now left]. }
      assert (Hu0 : List.length u = List.length t0).
      { destruct Hu as [Hu|Hu]; [apply Hsa; [exact Hu | now left]|].
        rewrite H0. apply Hsb; [exact Hu | now left]. }
      congruence.
Qed.

End ChunkFacts.

(** ** The batches of the mock backend in closed form *)

Section MockBatch.
Context {T : Torch}.

Lemma mock_outcome (n : nat) (token_ids : list Z) :
  fst (_get_logprobs token_ids (MockAsyncLM_init n))
  = if seed_accepted token_ids then Ok (seeded_distribution n token_ids)
    else Err RandomState.seed_error.
Proof.
  rewrite _get_logprobs_closed_form. cbv zeta. unfold seed_accepted.
  destruct (_ || _); reflexivity.
Qed.

Lemma seeded_distribution_length (n : nat) (token_ids : list Z) :
  (forall logits, List.length (log_softmax logits) = List.length logits) ->
  List.length (seeded_distribution n token_ids) = n.
Proof.
  intros Hshape. unfold seeded_distribution. rewrite Hshape, length_map.
  apply RandomStateFacts.double_fill_spec,
    RandomStateFacts.mt19937_seed_well_formed.
Qed.

(** X8. With a log-softmax that keeps the size of its input, the blocking
    batch of the mock backend never fails for rows of unequal sizes: on the
    empty list it raises the error of [torch.stack]; when numpy refuses the
    seed of some request it raises numpy's [ValueError]; otherwise it
    returns, for each request in order, the distribution drawn from a
    generator newly seeded with the seed of that request. *)
Theorem mock_batch_sync_outcome :
  forall (reqs : list (list Z)) (self : MockAsyncLM),
    (forall logits, List.length (log_softmax logits) = List.length logits) ->
    fst (batch_next_token_logprobs_sync reqs self)
    = match reqs with
      | [] => Err empty_stack_error
      | _ :: _ =>
          if forallb seed_accepted reqs
          then Ok (map (seeded_distribution (tokenizer_len self)) reqs)
          else Err RandomState.seed_error
      end.
Proof.
  intros reqs self Hshape. set (n := tokenizer_len self).
  set (Inv := fun m : MockAsyncLM => tokenizer_len m = n).
  set (f := fun ids => fst (_get_logprobs ids (MockAsyncLM_init n))).
  assert (Hsync : forall ids s, Inv s ->
             fst (next_token_logprobs_sync ids s) = f ids
             /\ Inv (snd (next_token_logprobs_sync ids s)))
    by (intros ids s H; now apply mock_sync_yields).
  destruct reqs as [|ids0 reqs']; [reflexivity|]. set (reqs := ids0 :: reqs').
  destruct (batch_sync_cases Inv f Hsync reqs self eq_refl)
    as [(vals & Hv & ->)|(ids & e & Hin & He & ->)].
  - assert (Hall : forallb seed_accepted reqs = true
                   /\ vals = map (seeded_distribution n) reqs).
    { clear -Hv. induction Hv as [|ids v reqs vals Hf Hv [IH1 IH2]].
      - split; reflexivity.
      - unfold f in Hf. rewrite mock_outcome in Hf. cbn [forallb map].
        destruct (seed_accepted ids); [|discriminate].
        injection Hf as <-. rewrite IH1, IH2. split; reflexivity. }
    destruct Hall as [-> ->]. apply torch_stack_one_size. split.
    + discriminate.
    + intros t u Ht Hu. apply in_map_iff in Ht, Hu.
      destruct Ht as (a & <- & _), Hu as (b & <- & _).
      now rewrite !seeded_distribution_length.
  - unfold f in He. rewrite mock_outcome in He.
    destruct (seed_accepted ids) eqn:Ea; [discriminate|]. injection He as <-.
    assert (Hall : forallb seed_accepted reqs = false); [|now rewrite Hall].
    destruct (forallb seed_accepted reqs) eqn:E; [|reflexivity].
    rewrite forallb_forall in E. rewrite (E ids Hin) in Ea. discriminate.
Qed.

End MockBatch.

(** ** How far from uniform a distribution can be *)

Section NearUniform.
Local Open Scope R_scope.

Lemma sum_exp_unit_bounds (xs : list R) :
  Forall (fun x => 0 <= x <= 1) xs ->
  INR (List.length xs) <= sum_exp xs <= INR (List.length xs) * exp 1.
Proof.
  induction 1 as [|x xs Hx H IH].
  - cbn. lra.
  - cbn [List.length sum_exp fold_right]. fold (sum_exp xs). rewrite S_INR.
    pose proof (exp_ineq1_le x). pose proof (@exp_mono x 1 (proj2 Hx)).
    lra.
Qed.

(** The logarithm of the sum of the exponentials of [n >= 1] logits of
    [[0, 1]] lies between [ln n] and [ln n + 1]. *)
Lemma log_sum_exp_bounds (xs : list R) :
  xs <> [] -> Forall (fun x => 0 <= x <= 1) xs ->
  ln (INR (List.length xs)) <= ln (sum_exp xs)
  <= ln (INR (List.length xs)) + 1.
Proof.
  intros Hne H. destruct (sum_exp_unit_bounds H) as [Hl Hu].
  assert (Hn : 0 < INR (List.length xs)).
  { apply lt_0_INR. destruct xs; [congruence | simpl; lia]. }
  assert (Hmono : forall a b, 0 < a -> a <= b -> ln a <= ln b).
  { intros a b Ha [Hab| ->]; [left; now apply ln_increasing | right; reflexivity]. }
  split; [now apply Hmono|].
  replace (ln (INR (List.length xs)) + 1)
    with (ln (INR (List.length xs) * exp 1))
    by (rewrite ln_mult, ln_exp; auto using exp_pos).
  apply Hmono; [lra | exact Hu].
Qed.

Lemma Forall2_entry_bounds (delta L lo hi : R) (ys xs : list R) :
  Forall2 (fun y x => Rabs (y - (x - L)) <= delta) ys xs ->
  Forall (fun x => 0 <= x <= 1) xs ->
  lo <= L <= hi ->
  Forall (fun y => - hi - delta <= y <= 1 - lo + delta) ys.
Proof.
  intros H. induction H as [|y x ys xs Hyx H IH]; intros Hx HL.
  - constructor.
  - inversion Hx as [|? ? Hx0 Hxs]; subst. constructor; [|now apply IH].
    apply Rabs_le_both in Hyx. lra.
Qed.

End NearUniform.

(** X9. No distribution of the mock backend is far from uniform.  With a
    cast that maps the doubles of [[0, 1)] into [[0, 1]] and a log-softmax
    accurate to [delta] on every entry at the size of the vocabulary, each
    entry of a distribution over [n >= 1] tokens is at least
    [- ln n - 1 - delta] and at most [- ln n + 1 + delta]: every probability
    is within a factor [e^(1 + delta)] of [1 / n]. *)
Theorem mock_distribution_near_uniform :
  forall (T : Torch) (value : float32 -> R) (delta : R),
    cast_in_unit_interval value ->
    forall (token_ids : list Z) (self : MockAsyncLM) (d : Tensor),
      (0 < tokenizer_len self)%nat ->
      log_softmax_accurate_at (tokenizer_len self) value delta ->
      fst (_get_logprobs token_ids self) = Ok d ->
      Forall (fun y =>
                (- ln (INR (tokenizer_len self)) - 1 - delta <= value y
                 <= - ln (INR (tokenizer_len self)) + 1 + delta)%R)
             d.
Proof.
  intros T value delta Hcast token_ids self d Hn Hk.
  rewrite _get_logprobs_closed_form. cbv zeta.
  destruct (_ || _); [discriminate|]. cbn [fst]. intros [= <-].
  set (n := tokenizer_len self) in *.
  destruct (RandomStateFacts.double_fill_spec n
              (RandomStateFacts.mt19937_seed_well_formed
                 (get_logprobs_seed token_ids))) as (Hl & Hr & _).
  set (draws := fst (RandomState.double_fill n _)) in *.
  pose proof (Hk draws Hl Hr) as Hacc. cbv zeta in Hacc.
  set (logits := map astype_float32 draws) in *.
  assert (Hunit : Forall (fun x => (0 <= x <= 1)%R) (map value logits)).
  { unfold logits. rewrite map_map. apply Forall_map.
    eapply Forall_impl; [|exact Hr]. intros k Hkr. now apply Hcast. }
  assert (Hne : map value logits <> []).
  { intros E. apply (f_equal (@List.length _)) in E.
    unfold logits in E. rewrite !length_map, Hl in E. simpl in E. lia. }
  pose proof (log_sum_exp_bounds Hne Hunit) as HL.
  assert (Hlen : List.length (map value logits) = n)
    by (unfold logits; now rewrite !length_map).
  rewrite Hlen in HL.
  apply Forall2_map_both
    with (P := fun y x =>
                 (Rabs (y - (x - ln (sum_exp (map value logits)))) <= delta)%R)
    in Hacc.
  pose proof (Forall2_entry_bounds Hacc Hunit HL) as Hb.
  apply Forall_map in Hb. eapply Forall_impl; [|exact Hb].
  cbv beta. intros y Hy. lra.
Qed.

(** [clear_cache] of the base class changes nothing: a call made after it
    is the call itself. *)
Lemma clear_cache_noop (St A : Type) (c : method St A) (self : St) :
  (_ <- clear_cache ;; c)%py self = c self.
Proof. reflexivity. Qed.

(** ** The further theorems at concrete inputs *)

Section FurtherScenarios.
#[local] Existing Instance Symbolic.

Lemma symbolic_log_softmax_length (logits : list sym32) :
  List.length (@log_softmax Symbolic logits) = List.length logits.
Proof. cbn. now rewrite length_map, length_seq. Qed.

Lemma exact_cast_in_unit_interval :
  cast_in_unit_interval (T := Symbolic) exact_value.
Proof.
  intros k [H0 H1]. cbn [astype_float32 Symbolic exact_value].
  assert (Hp : (IZR (2 ^ 53) = 2 ^ 53)%R)
    by (change (2 ^ 53)%Z with (2 ^ Z.of_nat 53)%Z; now rewrite <- pow_IZR).
  assert (Hpos : (0 < 2 ^ 53)%R) by (apply pow_lt; lra).
  apply IZR_le in H0. apply IZR_lt in H1. rewrite Hp in H1.
  split.
  - apply Rmult_le_pos; [exact H0 | left; now apply Rinv_0_lt_compat].
  - apply (Rmult_le_reg_r (2 ^ 53)); [exact Hpos|].
    unfold Rdiv. rewrite Rmult_assoc, Rinv_l by lra. lra.
Qed.

(** The longest prompt of the last token of a vocabulary of 50257 tokens
    that the mock backend answers has 412 tokens. *)
Lemma short_prompts_are_answered_witness :
  0 <= get_logprobs_seed (repeat 50256 412) <= 2 ^ 32 - 1
  /\ seed_accepted (repeat 50256 412) = true
  /\ _get_logprobs (repeat 50256 412) (MockAsyncLM_init 2)
     = (Ok (seeded_distribution 2 (repeat 50256 412)),
        {| tokenizer_len := 2;
           _rng := snd (RandomState.double_fill 2
                          (RandomState.new
                             (get_logprobs_seed (repeat 50256 412)))) |}).
Proof.
  apply (@short_prompts_are_answered Symbolic 50257 (repeat 50256 412)
           (MockAsyncLM_init 2)).
  - apply Forall_forall. intros t Ht. apply repeat_spec in Ht. subst t. lia.
  - rewrite repeat_length. lia.
Defined.

Lemma batch_returns_after_every_task_witness :
  (exists rows,
      fst (batch_next_token_logprobs [1; 0]%nat [[1; 2; 3]; [7]]
             (MockAsyncLM_init 2)) = Some (Ok rows))
  /\ (forall i, (i < 2)%nat -> In i [1; 0]%nat).
Proof.
  assert (H : exists rows,
             fst (batch_next_token_logprobs [1; 0]%nat [[1; 2; 3]; [7]]
                    (MockAsyncLM_init 2)) = Some (Ok rows))
    by (eexists; vm_compute; reflexivity).
  split; [exact H|]. destruct H as [rows H].
  exact (batch_returns_after_every_task _ _ _ H).
Defined.

Lemma batch_outcome_is_final_witness :
  let reqs := [[1; 2; 3]; [7]] in
  let self := MockAsyncLM_init 2 in
  let out := fst (batch_next_token_logprobs_sync reqs self) in
  fst (batch_next_token_logprobs [1; 0]%nat reqs self) = Some out
  /\ fst (batch_next_token_logprobs ([1; 0] ++ [0; 1; 5])%nat reqs self)
     = Some out.
Proof.
  cbv zeta.
  assert (H : fst (batch_next_token_logprobs [1; 0]%nat [[1; 2; 3]; [7]]
                     (MockAsyncLM_init 2))
              = Some (fst (batch_next_token_logprobs_sync [[1; 2; 3]; [7]]
                             (MockAsyncLM_init 2))))
    by (vm_compute; reflexivity).
  split; [exact H|]. now apply batch_outcome_is_final.
Defined.

Lemma batch_sync_in_chunks_witness :
  [[1; 2; 3]] <> ([] : list (list Z))
  /\ [[7]] <> ([] : list (list Z))
  /\ forall (self' : MockAsyncLM) (rows : list Tensor),
       batch_next_token_logprobs_sync ([[1; 2; 3]] ++ [[7]])
         (MockAsyncLM_init 2) = (Ok rows, self')
       <-> exists ra rb s1,
             batch_next_token_logprobs_sync [[1; 2; 3]] (MockAsyncLM_init 2)
             = (Ok ra, s1)
             /\ batch_next_token_logprobs_sync [[7]] s1 = (Ok rb, self')
             /\ rows = ra ++ rb
             /\ forall t u, In t ra -> In u rb ->
                  List.length t = List.length u.
Proof.
  split; [discriminate|]. split; [discriminate|].
  intros self' rows. apply batch_sync_in_chunks; discriminate.
Defined.

Lemma mock_batch_sync_outcome_witness :
  fst (batch_next_token_logprobs_sync [[1; 2; 3]; [7]] (MockAsyncLM_init 2))
  = Ok [seeded_distribution 2 [1; 2; 3]; seeded_distribution 2 [7]].
Proof.
  exact (@mock_batch_sync_outcome Symbolic [[1; 2; 3]; [7]]
           (MockAsyncLM_init 2) symbolic_log_softmax_length).
Defined.

End FurtherScenarios.

(** ** The fixed-point model meets the contracts of the kernel *)

Section FixedPointFacts.
Local Open Scope R_scope.

Lemma pow2_20 : 2 ^ 20 = 1048576.
Proof. simpl. lra. Qed.

Lemma fixed_value_in_range (z : Z) :
  -100 <= IZR z / 2 ^ 20 <= 100 -> fixed_value z = IZR z / 2 ^ 20.
Proof.
  intros [H0 H1]. unfold fixed_value.
  rewrite Rmin_right by lra. rewrite Rmax_right by lra. reflexivity.
Qed.

(** Rounding down to the grid loses less than one step. *)
Lemma to_fixed_spec (x : R) :
  x - / 2 ^ 20 < IZR (to_fixed x) / 2 ^ 20 <= x.
Proof.
  unfold to_fixed. destruct (base_Int_part (x * 2 ^ 20)) as [Hl Hu].
  rewrite pow2_20 in *. lra.
Qed.

Lemma fixed_point_cast_in_unit_interval :
  cast_in_unit_interval (T := FixedPoint) fixed_value.
Proof.
  intros k [H0 H1]. cbn [astype_float32 FixedPoint].
  assert (Hq : (0 <= k / 2 ^ 33 <= 1048575)%Z).
  { split; [apply Z.div_pos; lia|].
    apply Z.lt_succ_r, Z.div_lt_upper_bound; lia. }
  destruct Hq as [Hq0 Hq1]. apply IZR_le in Hq0, Hq1.
  rewrite fixed_value_in_range; rewrite pow2_20; lra.
Qed.


Lemma Forall2_map_self (A B : Type) (g : A -> B) (P : B -> A -> Prop)
    (xs : list A) :
  Forall (fun x => P (g x) x) xs -> Forall2 P (map g xs) xs.
Proof. induction 1; cbn; constructor; auto. Qed.

Lemma ln_INR_bounds (n : nat) (b : R) :
  (0 < n)%nat -> INR n <= exp b -> 0 <= ln (INR n) <= b.
Proof.
  intros Hn Hb.
  assert (H1 : 1 <= INR n) by (change 1 with (INR 1); apply le_INR; lia).
  split.
  - rewrite <- ln_1. destruct H1 as [H1| <-]; [|lra].
    left. apply ln_increasing; lra.
  - rewrite <- (ln_exp b). destruct Hb as [Hb| ->]; [|lra].
    left. apply ln_increasing; lra.
Qed.

(** The fixed-point kernel is accurate to one step of its grid at every
    vocabulary of at most [e^98] tokens: there the exact entries lie between
    -99 and 1, inside the range of the model. *)
Lemma fixed_point_accurate (n : nat) :
  INR n <= exp 98 ->
  log_softmax_accurate_at (T := FixedPoint) n fixed_value (/ 2 ^ 20).
Proof.
  intros Hn draws Hl Hr. cbv zeta.
  set (logits := map (@astype_float32 FixedPoint) draws).
  change (@log_softmax FixedPoint logits)
    with (map (fun x =>
                 to_fixed (fixed_value x
                           - ln (sum_exp (map fixed_value logits))))
              logits).
  assert (Hunit : Forall (fun x => 0 <= x <= 1) (map fixed_value logits)).
  { unfold logits. rewrite map_map. apply Forall_map.
    eapply Forall_impl; [|exact Hr].
    intros k Hk. now apply fixed_point_cast_in_unit_interval. }
  destruct n as [|n].
  { destruct draws; [constructor | discriminate]. }
  assert (Hne : map fixed_value logits <> []).
  { intros E. apply (f_equal (@List.length _)) in E.
    unfold logits in E. rewrite !length_map, Hl in E. discriminate. }
  pose proof (log_sum_exp_bounds Hne Hunit) as HL.
  assert (Hlen : List.length (map fixed_value logits) = S n)
    by (unfold logits; now rewrite !length_map).
  rewrite Hlen in HL.
  assert (Hln : 0 <= ln (INR (S n)) <= 98)
    by (apply ln_INR_bounds; [lia | exact Hn]).
  set (L := ln (sum_exp (map fixed_value logits))) in *.
  apply Forall2_map_self. apply Forall_map in Hunit.
  eapply Forall_impl; [|exact Hunit]. cbv beta. intros x Hx.
  pose proof (to_fixed_spec (fixed_value x - L)) as Hf.
  subst L. change (@float32 FixedPoint) with Z in *.
  rewrite fixed_value_in_range; rewrite pow2_20 in *;
    [apply Rabs_le|]; lra.
Qed.

Lemma small_vocabulary : INR 2 <= exp 98.
Proof. pose proof (exp_ineq1_le 98). simpl. lra. Qed.


Lemma accepted_1_2_3 : seed_accepted [1; 2; 3]%Z = true.
Proof. vm_compute. reflexivity. Qed.



Lemma mock_distribution_near_uniform_witness :
  Forall (fun y =>
            - ln (INR 2) - 1 - / 2 ^ 20 <= fixed_value y
            <= - ln (INR 2) + 1 + / 2 ^ 20)
         (seeded_distribution (T := FixedPoint) 2 [1; 2; 3]%Z).
Proof.
  apply (@mock_distribution_near_uniform FixedPoint fixed_value (/ 2 ^ 20)
           fixed_point_cast_in_unit_interval [1; 2; 3]%Z
           (MockAsyncLM_init 2)).
  - cbn. lia.
  - exact (fixed_point_accurate small_vocabulary).
  - rewrite mock_outcome, accepted_1_2_3. reflexivity.
Defined.

End FixedPointFacts.
